(** * Telemetry streaming agent: pipeline engine

    A shallow embedding of the parts of the agent that the specification
    talks about: the normalizers of [src/lib/utils/normalize.js], the
    cloud token cache, the data pipeline's dispatch function, the config
    worker, and (modelled from the specification where the repository
    sources are not at hand) the declaration resolver, the logger's
    secret masking and the data receiver's restart discipline.

    JavaScript strings are embedded as [string] (sequences of 8-bit code
    units, ASCII for every input the functions below are about), JavaScript
    objects used as dictionaries as [gmap string _], arrays as [list]. *)

From Stdlib Require Import ZArith Ascii String List Bool Lia DecimalString.
From stdpp Require Import base option list gmap strings.

#[local] Set Warnings "-register-all".

Local Open Scope string_scope.
Local Open Scope list_scope.
Local Open Scope Z_scope.

(** ** JavaScript string primitives used by the sources *)

Module JsString.

(** [String.prototype.indexOf] for a one-character needle: the index of the
    first occurrence, [-1] when there is none. *)
Fixpoint indexOf (c : ascii) (s : string) : Z :=
  match s with
  | EmptyString => -1
  | String d s' =>
      if Ascii.eqb d c then 0
      else let r := indexOf c s' in if r =? -1 then -1 else r + 1
  end.

(** [String.prototype.split] for a one-character separator.  The empty
    string splits into one empty piece, as in JavaScript. *)
Fixpoint split (sep : ascii) (s : string) : list string :=
  match s with
  | EmptyString => [EmptyString]
  | String c s' =>
      if Ascii.eqb c sep then EmptyString :: split sep s'
      else match split sep s' with
           | [] => [String c EmptyString]
           | piece :: rest => String c piece :: rest
           end
  end.

(** [Array.prototype.join]. *)
Fixpoint join (sep : string) (l : list string) : string :=
  match l with
  | [] => EmptyString
  | [x] => x
  | x :: rest => String.append x (String.append sep (join sep rest))
  end.

Definition is_lower (c : ascii) : bool :=
  let n := nat_of_ascii c in (97 <=? n)%nat && (n <=? 122)%nat.

Definition upper_char (c : ascii) : ascii :=
  if is_lower c then ascii_of_nat (nat_of_ascii c - 32) else c.

(** [String.prototype.toUpperCase] on ASCII code units: [a]..[z] move to
    [A]..[Z], every other code unit stays. *)
Fixpoint toUpperCase (s : string) : string :=
  match s with
  | EmptyString => EmptyString
  | String c s' => String (upper_char c) (toUpperCase s')
  end.

(** [String.prototype.substring(start)] with a natural start index. *)
Fixpoint substring_from (n : nat) (s : string) : string :=
  match n, s with
  | O, _ => s
  | S _, EmptyString => EmptyString
  | S n', String _ s' => substring_from n' s'
  end.

(** Membership of a code unit in a string. *)
Fixpoint contains (c : ascii) (s : string) : Prop :=
  match s with
  | EmptyString => False
  | String d s' => d = c \/ contains c s'
  end.

End JsString.

(** ** Normalizers ([src/lib/utils/normalize.js]) *)

Module Normalize.
Import JsString.

Definition colon : ascii := ":"%char.

(** The callback of [map] in [_formatMACAddress]. *)
Definition formatOctet (item : string) : string :=
  let item := toUpperCase item in
  if (String.length item =? 1)%nat then String "0" item else item.

(** [_formatMACAddress(mac)] *)
Definition _formatMACAddress (mac : string) : string :=
  if indexOf colon mac =? -1 then mac
  else join ":" (map formatOctet (split colon mac)).

(** The argument object of [normalizeMACAddress], for the call shape that
    formats a string: [args.data] is a string or undefined and
    [args.properties] is undefined. *)
Definition normalizeMACAddress (data : option string) : option string :=
  match data with
  | None => None
  | Some EmptyString => Some EmptyString
  | Some d => Some (_formatMACAddress d)
  end.

(** *** ASM last change *)

(** A JavaScript number as the sources below use it: [NaN] or an integral
    number of milliseconds. *)
Inductive JsNumber : Type :=
| NaN
| Num (z : Z).

(** Decimal rendering of an integer ([String(n)]). *)
Definition decimal (z : Z) : string := NilZero.string_of_int (Z.to_int z).

(** Left-pad the decimal rendering of a non-negative number with zeros. *)
Fixpoint zeros (n : nat) : string :=
  match n with
  | O => EmptyString
  | S n' => String "0" (zeros n')
  end.

Definition padStart (width : nat) (z : Z) : string :=
  let d := decimal z in
  String.append (zeros (width - String.length d)) d.

Definition msPerDay : Z := 86400000.

(** ECMAScript [Day(t)] and [TimeWithinDay(t)]. *)
Definition Day (t : Z) : Z := t / msPerDay.
Definition TimeWithinDay (t : Z) : Z := t mod msPerDay.

(** Year, month (1..12) and day of month (1..31) of a day number counted
    from the epoch, in the proleptic Gregorian calendar ECMAScript uses. *)
Definition civil (days : Z) : Z * Z * Z :=
  let z := days + 719468 in
  let era := z / 146097 in
  let doe := z - era * 146097 in
  let yoe := (doe - doe / 1460 + doe / 36524 - doe / 146096) / 365 in
  let doy := doe - (365 * yoe + yoe / 4 - yoe / 100) in
  let mp := (5 * doy + 2) / 153 in
  let d := doy - (153 * mp + 2) / 5 + 1 in
  let m := if mp <? 10 then mp + 3 else mp - 9 in
  let y := yoe + era * 400 + (if m <=? 2 then 1 else 0) in
  (y, m, d).

Definition yearString (y : Z) : string :=
  if (0 <=? y) && (y <=? 9999) then padStart 4 y
  else if y <? 0 then String "-" (padStart 6 (- y))
  else String "+" (padStart 6 y).

(** [new Date(t).toISOString()]; [None] stands for the [RangeError] of an
    invalid date (a time value outside +-8.64e15 ms). *)
Definition toISOString (t : Z) : option string :=
  if Z.abs t <=? 8640000000000000 then
    let '(y, m, d) := civil (Day t) in
    let w := TimeWithinDay t in
    Some (String.concat ""
            [yearString y; "-"; padStart 2 m; "-"; padStart 2 d; "T";
             padStart 2 (w / 3600000); ":"; padStart 2 (w / 60000 mod 60); ":";
             padStart 2 (w / 1000 mod 60); "."; padStart 3 (w mod 1000); "Z"])
  else None.

(** An ASM policy, with the one property [getLastAsmChange] reads;
    [None] is a policy without [versionDatetime]. *)
Record Policy : Type := mkPolicy { versionDatetime : option string }.

Section LastAsmChange.

(** [Date.parse], a built-in of the host: taken as given. *)
Variable Date_parse : string -> JsNumber.

Definition parseVersion (policy : Policy) : JsNumber :=
  match versionDatetime policy with
  | Some s => Date_parse s
  | None => Date_parse "undefined"
  end.

(** The body of the [forEach] callback, on the accumulator
    [latestModifiedDate]. *)
Definition lastAsmStep (latestModifiedDate : Z) (policy : Policy) : Z :=
  match parseVersion policy with
  | NaN => latestModifiedDate
  | Num versionInUnixTime =>
      if latestModifiedDate <? versionInUnixTime then versionInUnixTime
      else latestModifiedDate
  end.

(** [getLastAsmChange(args)] with [asmPolicies = args.data]. *)
Definition getLastAsmChange (asmPolicies : list Policy) : option string :=
  if (List.length asmPolicies =? 0)%nat then Some EmptyString
  else toISOString (fold_left lastAsmStep asmPolicies 0).

End LastAsmChange.

(** *** Array to map *)

(** Property values of the items handed to [_convertArrayToMap]. *)
Inductive JsValue : Type :=
| VUndefined
| VNull
| VBool (b : bool)
| VNum (z : Z)
| VStr (s : string)
| VObject.

(** [String(v)], the conversion a template literal and a property key
    apply. *)
Definition toStr (v : JsValue) : string :=
  match v with
  | VUndefined => "undefined"
  | VNull => "null"
  | VBool true => "true"
  | VBool false => "false"
  | VNum z => decimal z
  | VStr s => s
  | VObject => "[object Object]"
  end.

(** An item of the array: an object, read by [i[k]]. *)
Abbreviation Item := (gmap string JsValue).

Definition getProp (i : Item) (k : string) : JsValue :=
  default VUndefined (i !! k).

(** The [key] argument: one field name or an array of field names. *)
Inductive KeyArg : Type :=
| KeyName (k : string)
| KeyNames (ks : list string).

Record Options : Type := mkOptions {
  keyNamePrefix : option string;
  skipWhenKeyMissing : option bool;
  keyNamesSeparator : option string
}.

Definition noOptions : Options := mkOptions None None None.

(** Truthiness of an optional string option. *)
Definition truthy (o : option string) : option string :=
  match o with
  | Some EmptyString => None
  | other => other
  end.

(** The name under which the callback of [data.forEach] stores item [i]. *)
Definition keyNameOf (key : KeyArg) (options : Options) (i : Item) : string :=
  let keyNamesSeparator := default "_" (truthy (keyNamesSeparator options)) in
  match key with
  | KeyNames ks =>
      let keyName :=
        fold_left (fun acc k =>
                     String.append acc (String.append keyNamesSeparator (toStr (getProp i k))))
                  ks EmptyString in
      let keyName := substring_from 1 keyName in
      match truthy (keyNamePrefix options) with
      | Some prefix => String.append prefix keyName
      | None => keyName
      end
  | KeyName k =>
      match truthy (keyNamePrefix options) with
      | Some prefix => String.append prefix (toStr (getProp i k))
      | None => toStr (getProp i k)
      end
  end.

(** The [data] argument: an array of items or anything else. *)
Inductive Data : Type :=
| DArray (l : list Item)
| DOther.

Inductive Throws : Type :=
| ArrayRequired.

(** [_convertArrayToMap(data, key, options)]: [inl] is the thrown error. *)
Definition _convertArrayToMap (data : Data) (key : KeyArg) (options : Options)
  : Throws + gmap string Item :=
  match data with
  | DOther => inl ArrayRequired
  | DArray l =>
      inr (fold_left (fun ret i => <[keyNameOf key options i := i]> ret) l ∅)
  end.

(** *** Facts about the string primitives *)

Lemma indexOf_ge (c : ascii) (s : string) : -1 <= indexOf c s.
Proof.
  induction s as [|d s IH]; simpl; [lia|].
  destruct (Ascii.eqb d c); [lia|].
  destruct (Z.eqb_spec (indexOf c s) (-1)); lia.
Qed.

Lemma indexOf_none (c : ascii) (s : string) :
  indexOf c s = -1 <-> ~ contains c s.
Proof.
  induction s as [|d s IH]; simpl; [tauto|].
  destruct (Ascii.eqb_spec d c) as [->|Hne].
  - split; [lia | intros H; exfalso; apply H; now left].
  - pose proof (indexOf_ge c s) as Hge.
    destruct (Z.eqb_spec (indexOf c s) (-1)) as [E|E].
    + split; [|reflexivity]. intros _ [H|H]; [congruence | now apply IH].
    + split; [lia|]. intros H. exfalso. apply E, IH. tauto.
Qed.

Lemma split_nonempty (sep : ascii) (s : string) : split sep s <> [].
Proof.
  induction s as [|c s IH]; simpl; [discriminate|].
  destruct (Ascii.eqb c sep); [discriminate|].
  destruct (split sep s); discriminate.
Qed.

Lemma split_pieces (sep : ascii) (s : string) :
  Forall (fun piece => ~ contains sep piece) (split sep s).
Proof.
  induction s as [|c s IH]; simpl.
  - constructor; [simpl; tauto | constructor].
  - destruct (Ascii.eqb_spec c sep) as [->|Hne].
    + constructor; [simpl; tauto | exact IH].
    + destruct (split sep s) as [|piece rest].
      * constructor; [simpl; tauto | constructor].
      * inversion IH; subst. constructor; [simpl; tauto | assumption].
Qed.

Lemma split_no_sep (sep : ascii) (s : string) :
  ~ contains sep s -> split sep s = [s].
Proof.
  induction s as [|c s IH]; simpl; [reflexivity|].
  intros H. destruct (Ascii.eqb_spec c sep) as [->|Hne]; [tauto|].
  rewrite IH by tauto. reflexivity.
Qed.

Lemma split_append_sep (sep : ascii) (x rest : string) :
  ~ contains sep x ->
  split sep (String.append x (String sep rest)) = x :: split sep rest.
Proof.
  induction x as [|c x IH]; simpl; intros H.
  - now rewrite Ascii.eqb_refl.
  - destruct (Ascii.eqb_spec c sep) as [->|Hne]; [tauto|].
    rewrite IH by tauto. reflexivity.
Qed.

(** Splitting undoes joining when no piece holds the separator. *)
Lemma split_join (sep : ascii) (l : list string) :
  l <> [] ->
  Forall (fun piece => ~ contains sep piece) l ->
  split sep (join (String sep EmptyString) l) = l.
Proof.
  induction l as [|x l IH]; [congruence|].
  intros _ HF. inversion HF as [|? ? Hx Hl]; subst.
  destruct l as [|y l].
  - simpl. now apply split_no_sep.
  - change (join (String sep EmptyString) (x :: y :: l))
      with (String.append x (String sep (join (String sep EmptyString) (y :: l)))).
    rewrite split_append_sep by assumption.
    rewrite IH; [reflexivity | discriminate | assumption].
Qed.

Lemma upper_char_not_lower (c : ascii) : is_lower (upper_char c) = false.
Proof.
  destruct c as [[] [] [] [] [] [] [] []]; vm_compute; reflexivity.
Qed.

Lemma upper_char_colon (c : ascii) : upper_char c = colon -> c = colon.
Proof.
  destruct c as [[] [] [] [] [] [] [] []]; vm_compute; congruence.
Qed.

Lemma toUpperCase_length (s : string) :
  String.length (toUpperCase s) = String.length s.
Proof. induction s as [|c s IH]; simpl; congruence. Qed.

Lemma toUpperCase_colon (s : string) :
  ~ contains colon s -> ~ contains colon (toUpperCase s).
Proof.
  induction s as [|c s IH]; simpl; [tauto|].
  intros H [E|E]; [apply upper_char_colon in E; tauto | apply IH in E; tauto].
Qed.

(** No code unit of [s] is a lower-case ASCII letter. *)
Fixpoint no_lower (s : string) : Prop :=
  match s with
  | EmptyString => True
  | String c s' => is_lower c = false /\ no_lower s'
  end.

Lemma toUpperCase_no_lower (s : string) : no_lower (toUpperCase s).
Proof.
  induction s as [|c s IH]; simpl; [exact I|].
  split; [apply upper_char_not_lower | exact IH].
Qed.

Lemma formatOctet_colon (o : string) :
  ~ contains colon o -> ~ contains colon (formatOctet o).
Proof.
  intros H. unfold formatOctet.
  destruct (String.length (toUpperCase o) =? 1)%nat.
  - simpl. intros [E|E]; [discriminate E | now apply toUpperCase_colon in E].
  - now apply toUpperCase_colon.
Qed.

(** What the claim says of one octet: upper-cased, and a one-character
    octet gets a leading zero. *)
Definition octetNormalized (o o' : string) : Prop :=
  no_lower o' /\
  (String.length o = 1%nat -> o' = String "0" (toUpperCase o)) /\
  (String.length o <> 1%nat -> o' = toUpperCase o).

Lemma formatOctet_normalized (o : string) : octetNormalized o (formatOctet o).
Proof.
  unfold octetNormalized, formatOctet. rewrite toUpperCase_length.
  destruct (Nat.eqb_spec (String.length o) 1) as [E|E].
  - split; [|split]; [|congruence|congruence].
    simpl. split; [reflexivity | apply toUpperCase_no_lower].
  - split; [|split]; [|congruence|congruence]. apply toUpperCase_no_lower.
Qed.

(** C8. MAC normalization: when the address holds a colon, the octets of
    the result (its colon-separated pieces) are, one for one, the octets
    of the input upper-cased, a one-character octet left-padded with a
    zero; an address without a colon comes back unchanged.  The two
    addresses of the specification give the stated results, also through
    [normalizeMACAddress]. *)
Theorem formatMACAddress_spec (mac : string) :
  (contains colon mac ->
   Forall2 octetNormalized (split colon mac) (split colon (_formatMACAddress mac))) /\
  (~ contains colon mac -> _formatMACAddress mac = mac) /\
  _formatMACAddress "a:b:cc:d:ee:f" = "0A:0B:CC:0D:EE:0F" /\
  _formatMACAddress "no-colons" = "no-colons" /\
  normalizeMACAddress (Some "a:b:cc:d:ee:f") = Some "0A:0B:CC:0D:EE:0F" /\
  normalizeMACAddress (Some "no-colons") = Some "no-colons".
Proof.
  split; [|split; [|repeat split]].
  - intros Hc. unfold _formatMACAddress.
    destruct (Z.eqb_spec (indexOf colon mac) (-1)) as [E|_].
    { apply indexOf_none in E. tauto. }
    change ":" with (String colon EmptyString).
    rewrite split_join.
    + induction (split colon mac) as [|o l IH]; simpl; constructor;
        [apply formatOctet_normalized | exact IH].
    + pose proof (split_nonempty colon mac). destruct (split colon mac); simpl; congruence.
    + pose proof (split_pieces colon mac) as HF.
      induction HF; simpl; constructor; [now apply formatOctet_colon | assumption].
  - intros Hn. unfold _formatMACAddress.
    apply indexOf_none in Hn. rewrite Hn. reflexivity.
Qed.

Lemma formatMACAddress_spec_witness :
  Forall2 octetNormalized ["a"; "b"; "cc"] (split colon (_formatMACAddress "a:b:cc")) /\
  _formatMACAddress "aabbcc" = "aabbcc".
Proof.
  split.
  - apply (proj1 (formatMACAddress_spec "a:b:cc")). simpl. tauto.
  - apply (proj1 (proj2 (formatMACAddress_spec "aabbcc"))). simpl.
    intros H. repeat (destruct H as [H|H]; [discriminate H|]). exact H.
Defined.

(** *** ASM last change: facts *)

Lemma append_nonempty (x y : string) :
  y <> EmptyString -> String.append x y <> EmptyString.
Proof. destruct x; simpl; [tauto | discriminate]. Qed.

Lemma toISOString_nonempty (t : Z) : toISOString t <> Some EmptyString.
Proof.
  unfold toISOString. destruct (Z.abs t <=? 8640000000000000); [|discriminate].
  destruct (civil (Day t)) as [[y m] d].
  intros H. injection H as H. revert H. cbn [String.concat].
  apply append_nonempty. simpl. discriminate.
Qed.

Lemma lastAsm_all_NaN (Date_parse : string -> JsNumber) (l : list Policy) (acc : Z) :
  Forall (fun p => parseVersion Date_parse p = NaN) l ->
  fold_left (lastAsmStep Date_parse) l acc = acc.
Proof.
  intros HF. revert acc. induction HF as [|p l Hp _ IH]; intros acc; simpl.
  - reflexivity.
  - unfold lastAsmStep at 2. rewrite Hp. apply IH.
Qed.

(** C9. For a non-empty list of policies of which no [versionDatetime]
    parses as a date, [getLastAsmChange] returns the epoch in ISO-8601
    form; the empty string is returned for the empty list and for no
    other input. *)
Theorem getLastAsmChange_epoch (Date_parse : string -> JsNumber)
    (asmPolicies : list Policy) :
  (asmPolicies <> [] ->
   Forall (fun p => parseVersion Date_parse p = NaN) asmPolicies ->
   getLastAsmChange Date_parse asmPolicies = Some "1970-01-01T00:00:00.000Z") /\
  (getLastAsmChange Date_parse asmPolicies = Some EmptyString <-> asmPolicies = []).
Proof.
  split.
  - intros Hne HF. unfold getLastAsmChange.
    destruct asmPolicies as [|p l]; [congruence|].
    cbn [List.length Nat.eqb]. rewrite lastAsm_all_NaN by assumption.
    vm_compute. reflexivity.
  - split.
    + unfold getLastAsmChange. destruct asmPolicies as [|p l]; [reflexivity|].
      cbn [List.length Nat.eqb]. intros H. now apply toISOString_nonempty in H.
    + intros ->. reflexivity.
Qed.

Lemma getLastAsmChange_epoch_witness :
  getLastAsmChange (fun _ => NaN) [mkPolicy (Some "not a date"); mkPolicy None]
  = Some "1970-01-01T00:00:00.000Z".
Proof.
  apply (proj1 (getLastAsmChange_epoch (fun _ => NaN)
                  [mkPolicy (Some "not a date"); mkPolicy None])).
  - discriminate.
  - repeat constructor.
Defined.

(** The third scenario of the specification, with the two time values
    [Date.parse] gives for its inputs. *)
Definition parseScenario (s : string) : JsNumber :=
  if String.eqb s "2020-01-02T00:00:00Z" then Num 1577923200000
  else if String.eqb s "2021-06-01T00:00:00Z" then Num 1622505600000
  else NaN.

Example getLastAsmChange_scenario :
  getLastAsmChange parseScenario
    [mkPolicy (Some "2020-01-02T00:00:00Z"); mkPolicy (Some "2021-06-01T00:00:00Z")]
  = Some "2021-06-01T00:00:00.000Z".
Proof. vm_compute. reflexivity. Qed.

(** *** Array to map: facts *)

Section ArrayToMap.

Variable kn : Item -> string.

Definition collect (l : list Item) : gmap string Item :=
  fold_left (fun ret i => <[kn i := i]> ret) l ∅.

Lemma collect_snoc (l : list Item) (x : Item) :
  collect (l ++ [x]) = <[kn x := x]> (collect l).
Proof. unfold collect. now rewrite fold_left_app. Qed.

(** The map binds [k] to the last item of the array named [k]. *)
Lemma collect_lookup (l : list Item) (k : string) (item : Item) :
  collect l !! k = Some item <->
  exists l1 l2, l = l1 ++ item :: l2 /\ kn item = k /\
                Forall (fun i => kn i <> k) l2.
Proof.
  revert item. induction l as [|x l IH] using rev_ind; intros item.
  - unfold collect. simpl. rewrite lookup_empty. split; [discriminate|].
    intros (l1 & l2 & E & _). destruct l1; discriminate E.
  - rewrite collect_snoc. split.
    + intros H. apply lookup_insert_Some in H as [[Hk ->]|[Hk H]].
      * exists l, []. repeat split; [assumption | constructor].
      * apply IH in H as (l1 & l2 & -> & Hkn & HF).
        exists l1, (l2 ++ [x]). rewrite <- app_assoc. repeat split; try assumption.
        apply Forall_app. split; [assumption|]. constructor; [assumption | constructor].
    + intros (l1 & l2 & E & Hkn & HF).
      destruct l2 as [|y l2 _] using rev_ind.
      * apply app_inj_tail in E as [_ ->]. rewrite Hkn. apply lookup_insert_eq.
      * rewrite app_comm_cons, app_assoc in E. apply app_inj_tail in E as [-> ->].
        apply Forall_app in HF as [HF Hy]. inversion Hy; subst.
        rewrite lookup_insert_ne by assumption.
        apply IH. exists l1, l2. repeat split; assumption.
Qed.

Lemma collect_is_Some (l : list Item) (a : Item) :
  a ∈ l -> is_Some (collect l !! kn a).
Proof.
  induction l as [|x l IH] using rev_ind; intros Ha.
  - inversion Ha.
  - rewrite collect_snoc. apply elem_of_app in Ha as [Ha|Ha].
    + destruct (decide (kn x = kn a)) as [E|E].
      * rewrite E, lookup_insert_eq. eauto.
      * rewrite lookup_insert_ne by assumption. now apply IH.
    + apply list_elem_of_singleton in Ha as ->. rewrite lookup_insert_eq. eauto.
Qed.

Lemma collect_size (l : list Item) : (size (collect l) <= List.length l)%nat.
Proof.
  induction l as [|x l IH] using rev_ind.
  - unfold collect. simpl. rewrite map_size_empty. lia.
  - rewrite collect_snoc, map_size_insert, length_app. simpl.
    destruct (collect l !! kn x); simpl; lia.
Qed.

Lemma collect_size_collision (l : list Item) (i j : nat) (a b : Item) :
  (i < j)%nat -> l !! i = Some a -> l !! j = Some b -> kn a = kn b ->
  (size (collect l) < List.length l)%nat.
Proof.
  revert i j a b. induction l as [|x l IH] using rev_ind; intros i j a b Hij Ha Hb E.
  - discriminate Ha.
  - rewrite collect_snoc, map_size_insert, length_app. simpl.
    pose proof (collect_size l) as Hsz.
    apply lookup_snoc_Some in Hb as [[Hj Hb]|[Hj ->]].
    + apply lookup_snoc_Some in Ha as [[_ Ha]|[Hi _]]; [|lia].
      pose proof (IH i j a b Hij Ha Hb E).
      destruct (collect l !! kn x); simpl; lia.
    + apply lookup_snoc_Some in Ha as [[_ Ha]|[Hi _]]; [|lia].
      assert (Hin : a ∈ l) by (apply list_elem_of_lookup; eauto).
      apply collect_is_Some in Hin as [y Hy]. rewrite <- E, Hy. simpl. lia.
Qed.

End ArrayToMap.

(** C10. [_convertArrayToMap] raises no error on an array, whatever the
    key and the options; the map it returns binds a name to an item
    exactly when that item is the last one of the array with that name
    (last write wins), so it never has more entries than the array has
    elements, and has fewer as soon as two elements share a name. *)
Theorem convertArrayToMap_last_wins (l : list Item) (key : KeyArg) (options : Options) :
  exists ret : gmap string Item,
    _convertArrayToMap (DArray l) key options = inr ret /\
    (forall (k : string) (item : Item),
        ret !! k = Some item <->
        exists l1 l2, l = l1 ++ item :: l2 /\ keyNameOf key options item = k /\
                      Forall (fun i => keyNameOf key options i <> k) l2) /\
    (size ret <= List.length l)%nat /\
    (forall (i j : nat) (a b : Item),
        (i < j)%nat -> l !! i = Some a -> l !! j = Some b ->
        keyNameOf key options a = keyNameOf key options b ->
        (size ret < List.length l)%nat).
Proof.
  exists (collect (keyNameOf key options) l). split; [reflexivity|].
  split; [|split].
  - intros k item. apply collect_lookup.
  - apply collect_size.
  - intros i j a b. apply collect_size_collision.
Qed.

Definition itemA1 : Item := {[ "n" := VStr "a"; "v" := VNum 1 ]}.
Definition itemB2 : Item := {[ "n" := VStr "b"; "v" := VNum 2 ]}.
Definition itemA3 : Item := {[ "n" := VStr "a"; "v" := VNum 3 ]}.

Lemma convertArrayToMap_last_wins_witness :
  exists ret : gmap string Item,
    _convertArrayToMap (DArray [itemA1; itemB2; itemA3]) (KeyName "n") noOptions = inr ret /\
    ret !! "a" = Some itemA3 /\ (size ret < 3)%nat.
Proof.
  destruct (convertArrayToMap_last_wins [itemA1; itemB2; itemA3] (KeyName "n") noOptions)
    as (ret & E & Hlast & _ & Hlt).
  exists ret. split; [exact E|]. split.
  - apply Hlast. exists [itemA1; itemB2], []. split; [reflexivity|].
    split; [vm_compute; reflexivity | constructor].
  - apply (Hlt 0%nat 2%nat itemA1 itemA3); [lia | reflexivity | reflexivity |].
    vm_compute. reflexivity.
Defined.

(** The fourth scenario of the specification, and a compound key. *)
Example convertArrayToMap_scenario :
  _convertArrayToMap (DArray [itemA1; itemB2]) (KeyName "n") noOptions
  = inr {[ "a" := itemA1; "b" := itemB2 ]}.
Proof. vm_compute. reflexivity. Qed.

Example keyNameOf_compound :
  keyNameOf (KeyNames ["n"; "v"]) (mkOptions (Some "p/") None None) itemA3 = "p/a_3".
Proof. vm_compute. reflexivity. Qed.

(** *** MAC normalization, ASM state and last change: further facts *)

Lemma upper_char_idem (c : ascii) : upper_char (upper_char c) = upper_char c.
Proof.
  destruct c as [[] [] [] [] [] [] [] []]; vm_compute; reflexivity.
Qed.

Lemma toUpperCase_idem (s : string) : toUpperCase (toUpperCase s) = toUpperCase s.
Proof.
  induction s as [|c s IH]; simpl; [reflexivity|].
  now rewrite upper_char_idem, IH.
Qed.

Lemma formatOctet_idem (o : string) : formatOctet (formatOctet o) = formatOctet o.
Proof.
  unfold formatOctet at 2. rewrite toUpperCase_length.
  destruct (Nat.eqb_spec (String.length o) 1) as [E|E].
  - unfold formatOctet. simpl. rewrite ?upper_char_idem, toUpperCase_idem.
    rewrite ?toUpperCase_length, E. reflexivity.
  - unfold formatOctet. rewrite toUpperCase_idem, toUpperCase_length.
    destruct (Nat.eqb_spec (String.length o) 1); [contradiction | reflexivity].
Qed.

Lemma formatOctets_colon (l : list string) :
  Forall (fun piece => ~ contains colon piece) l ->
  Forall (fun piece => ~ contains colon piece) (map formatOctet l).
Proof.
  induction 1 as [|o l Ho _ IH]; simpl; constructor;
    [now apply formatOctet_colon | exact IH].
Qed.

(** Formatting a formatted MAC address changes nothing. *)
Theorem formatMACAddress_idempotent (mac : string) :
  _formatMACAddress (_formatMACAddress mac) = _formatMACAddress mac.
Proof.
  destruct (Z.eqb_spec (indexOf colon mac) (-1)) as [E|E].
  - assert (Hr : _formatMACAddress mac = mac).
    { unfold _formatMACAddress. now rewrite E. }
    now rewrite !Hr.
  - assert (Hr : _formatMACAddress mac = join ":" (map formatOctet (split colon mac))).
    { unfold _formatMACAddress.
      destruct (Z.eqb_spec (indexOf colon mac) (-1)); [contradiction | reflexivity]. }
    rewrite Hr. set (r := join ":" (map formatOctet (split colon mac))).
    unfold _formatMACAddress.
    destruct (Z.eqb_spec (indexOf colon r) (-1)) as [_|_]; [reflexivity|].
    unfold r. change ":" with (String colon EmptyString).
    rewrite split_join.
    + rewrite map_map. f_equal. apply map_ext. intros o. apply formatOctet_idem.
    + pose proof (split_nonempty colon mac). destruct (split colon mac); simpl; congruence.
    + apply formatOctets_colon, split_pieces.
Qed.

(** An ASM policy, with the one property [getAsmState] reads. *)
Record PolicyState : Type := mkPolicyState { isModified : JsValue }.

Definition CONSISTENT : string := "Policies Consistent".
Definition PENDING : string := "Pending Policy Changes".

(** [policy.isModified === true] *)
Definition isModifiedTrue (policy : PolicyState) : bool :=
  match isModified policy with
  | VBool true => true
  | _ => false
  end.

(** [getAsmState(args)] with [asmPolicies = args.data]. *)
Definition getAsmState (asmPolicies : list PolicyState) : string :=
  fold_left (fun asmState policy => if isModifiedTrue policy then PENDING else asmState)
            asmPolicies CONSISTENT.

Lemma getAsmState_fold (l : list PolicyState) (st : string) :
  fold_left (fun asmState policy => if isModifiedTrue policy then PENDING else asmState) l st
  = if existsb isModifiedTrue l then PENDING else st.
Proof.
  revert st. induction l as [|p l IH]; intros st; simpl; [reflexivity|].
  rewrite IH. destruct (isModifiedTrue p); simpl; [|reflexivity].
  now destruct (existsb isModifiedTrue l).
Qed.

(** The ASM state is 'Pending Policy Changes' exactly when some policy has
    [isModified] equal to the boolean [true] (a truthy value of another
    type does not count), and 'Policies Consistent' otherwise, also for no
    policy at all. *)
Theorem getAsmState_pending (asmPolicies : list PolicyState) :
  (getAsmState asmPolicies = PENDING <->
   exists policy, policy ∈ asmPolicies /\ isModified policy = VBool true) /\
  (getAsmState asmPolicies = CONSISTENT <->
   forall policy, policy ∈ asmPolicies -> isModified policy <> VBool true).
Proof.
  unfold getAsmState. rewrite getAsmState_fold.
  destruct (existsb isModifiedTrue asmPolicies) eqn:E.
  - apply existsb_exists in E as (p & Hin & Hp).
    assert (Hm : isModified p = VBool true).
    { unfold isModifiedTrue in Hp. destruct (isModified p) as [| |[]| | |]; congruence. }
    split; split.
    + intros _. exists p. split; [now apply list_elem_of_In | exact Hm].
    + reflexivity.
    + discriminate.
    + intros H. exfalso. apply (H p); [now apply list_elem_of_In | exact Hm].
  - assert (Hnone : forall p, p ∈ asmPolicies -> isModified p <> VBool true).
    { intros p Hin Hp.
      assert (Hex : existsb isModifiedTrue asmPolicies = true).
      { apply existsb_exists. exists p. split; [now apply list_elem_of_In|].
        unfold isModifiedTrue. now rewrite Hp. }
      congruence. }
    split; split.
    + discriminate.
    + intros (p & Hin & Hp). exfalso. now apply (Hnone p).
    + intros _. exact Hnone.
    + reflexivity.
Qed.

Lemma getAsmState_pending_witness :
  getAsmState [mkPolicyState (VBool false); mkPolicyState (VBool true)] = PENDING /\
  getAsmState [mkPolicyState (VStr "true"); mkPolicyState VUndefined] = CONSISTENT.
Proof.
  split.
  - apply (proj1 (getAsmState_pending _)). exists (mkPolicyState (VBool true)).
    split; [|reflexivity]. apply list_elem_of_In. simpl. tauto.
  - apply (proj2 (getAsmState_pending _)). intros p Hin.
    apply list_elem_of_In in Hin. simpl in Hin.
    destruct Hin as [<-|[<-|[]]]; discriminate.
Defined.

Section LatestChange.

Variable Date_parse : string -> JsNumber.

(** [m] is the latest change of the policies: not below the epoch, not
    below the time of any version that parses, and either the epoch or the
    time of one of the versions. *)
Definition latest (l : list Policy) (m : Z) : Prop :=
  0 <= m /\
  (forall p t, p ∈ l -> parseVersion Date_parse p = Num t -> t <= m) /\
  (m = 0 \/ exists p, p ∈ l /\ parseVersion Date_parse p = Num m).

Lemma lastAsm_fold (l : list Policy) (acc : Z) :
  acc <= fold_left (lastAsmStep Date_parse) l acc /\
  (forall p t, p ∈ l -> parseVersion Date_parse p = Num t ->
               t <= fold_left (lastAsmStep Date_parse) l acc) /\
  (fold_left (lastAsmStep Date_parse) l acc = acc \/
   exists p, p ∈ l /\
             parseVersion Date_parse p = Num (fold_left (lastAsmStep Date_parse) l acc)).
Proof.
  revert acc. induction l as [|q l IH]; intros acc; simpl.
  - split; [lia|]. split; [|now left]. intros p t Hin. inversion Hin.
  - destruct (IH (lastAsmStep Date_parse acc q)) as (Hge & Hub & Hatt).
    assert (Hstep : acc <= lastAsmStep Date_parse acc q /\
                    (forall t, parseVersion Date_parse q = Num t ->
                               t <= lastAsmStep Date_parse acc q) /\
                    (lastAsmStep Date_parse acc q = acc \/
                     parseVersion Date_parse q = Num (lastAsmStep Date_parse acc q))).
    { unfold lastAsmStep. destruct (parseVersion Date_parse q) as [|v].
      - split; [lia|]. split; [discriminate | now left].
      - destruct (Z.ltb_spec acc v).
        + split; [lia|]. split; [intros t [= <-]; lia | now right].
        + split; [lia|]. split; [intros t [= <-]; lia | now left]. }
    destruct Hstep as (H1 & H2 & H3).
    split; [lia|]. split.
    + intros p t Hin Hp. apply elem_of_cons in Hin as [->|Hin].
      * specialize (H2 t Hp). lia.
      * now apply (Hub p).
    + destruct Hatt as [E|(p & Hin & Hp)].
      * rewrite E. destruct H3 as [E'|E']; [left; exact E'|].
        right. exists q. split; [apply elem_of_cons; now left | exact E'].
      * right. exists p. split; [apply elem_of_cons; now right | exact Hp].
Qed.

Lemma latest_unique (l l' : list Policy) (m m' : Z) :
  (forall p, p ∈ l <-> p ∈ l') -> latest l m -> latest l' m' -> m = m'.
Proof.
  intros Hperm (H0 & Hub & Hatt) (H0' & Hub' & Hatt').
  assert (m <= m').
  { destruct Hatt as [->|(p & Hin & Hp)]; [lia|]. apply (Hub' p); [now apply Hperm | exact Hp]. }
  assert (m' <= m).
  { destruct Hatt' as [->|(p & Hin & Hp)]; [lia|]. apply (Hub p); [now apply Hperm | exact Hp]. }
  lia.
Qed.

(** For a non-empty list of policies [getLastAsmChange] renders the latest
    change: the greatest time among the versions that parse and the epoch,
    so that versions dated before the epoch never show. *)
Theorem getLastAsmChange_latest (asmPolicies : list Policy) :
  asmPolicies <> [] ->
  exists m : Z, latest asmPolicies m /\
                getLastAsmChange Date_parse asmPolicies = toISOString m.
Proof.
  intros Hne. exists (fold_left (lastAsmStep Date_parse) asmPolicies 0). split.
  - destruct (lastAsm_fold asmPolicies 0) as (Hge & Hub & Hatt).
    split; [exact Hge|]. split; [exact Hub | exact Hatt].
  - unfold getLastAsmChange. destruct asmPolicies; [congruence | reflexivity].
Qed.

(** The order of the policies does not matter to [getLastAsmChange]. *)
Theorem getLastAsmChange_permutation (l l' : list Policy) :
  l ≡ₚ l' -> getLastAsmChange Date_parse l = getLastAsmChange Date_parse l'.
Proof.
  intros Hperm. unfold getLastAsmChange.
  rewrite <- (Permutation_length Hperm).
  destruct (List.length l =? 0)%nat; [reflexivity|]. f_equal.
  apply (latest_unique l l').
  - intros p. now rewrite Hperm.
  - destruct (lastAsm_fold l 0) as (Hge & Hub & Hatt). repeat split; assumption.
  - destruct (lastAsm_fold l' 0) as (Hge & Hub & Hatt). repeat split; assumption.
Qed.

End LatestChange.

Lemma getLastAsmChange_latest_witness :
  exists m : Z,
    latest parseScenario
      [mkPolicy (Some "2021-06-01T00:00:00Z"); mkPolicy (Some "2020-01-02T00:00:00Z")] m /\
    getLastAsmChange parseScenario
      [mkPolicy (Some "2021-06-01T00:00:00Z"); mkPolicy (Some "2020-01-02T00:00:00Z")]
    = toISOString m.
Proof. apply getLastAsmChange_latest. discriminate. Defined.

Lemma getLastAsmChange_permutation_witness :
  getLastAsmChange parseScenario
    [mkPolicy (Some "2021-06-01T00:00:00Z"); mkPolicy (Some "2020-01-02T00:00:00Z")]
  = getLastAsmChange parseScenario
    [mkPolicy (Some "2020-01-02T00:00:00Z"); mkPolicy (Some "2021-06-01T00:00:00Z")].
Proof. apply getLastAsmChange_permutation. apply Permutation_swap. Defined.

(** *** Compound keys *)

Lemma append_assoc (a b c : string) :
  String.append (String.append a b) c = String.append a (String.append b c).
Proof.
  induction a as [|x a IH]; [reflexivity|].
  change (String x (String.append (String.append a b) c)
          = String x (String.append a (String.append b c))).
  now rewrite IH.
Qed.

Lemma append_empty_r (a : string) : String.append a EmptyString = a.
Proof.
  induction a as [|x a IH]; [reflexivity|].
  change (String x (String.append a EmptyString) = String x a). now rewrite IH.
Qed.

Lemma compound_fold (sep : string) (value : string -> string) (ks : list string)
    (acc : string) :
  fold_left (fun acc k => String.append acc (String.append sep (value k))) ks acc
  = String.append acc
      (match ks with
       | [] => EmptyString
       | _ => String.append sep (join sep (map value ks))
       end).
Proof.
  revert acc. induction ks as [|k ks IH]; intros acc.
  - simpl. now rewrite append_empty_r.
  - cbn [fold_left]. rewrite IH. destruct ks as [|k' ks].
    + cbn [map join]. now rewrite append_empty_r.
    + change (join sep (map value (k :: k' :: ks)))
        with (String.append (value k)
                (String.append sep (join sep (map value (k' :: ks))))).
      now rewrite !append_assoc.
Qed.

(** The name of an item under a compound key: the prefix, if any, then the
    values of the key fields joined by the separator (an underscore unless
    the options give one).  Only the first character of the separator is
    removed from the front, so what is left of a longer separator stays
    between the prefix and the first value. *)
Theorem keyNameOf_compound_format (ks : list string) (options : Options) (i : Item)
    (c : ascii) (rest : string) :
  ks <> [] ->
  default "_" (truthy (keyNamesSeparator options)) = String c rest ->
  keyNameOf (KeyNames ks) options i
  = String.append (default EmptyString (truthy (keyNamePrefix options)))
      (String.append rest
         (join (String c rest) (map (fun k => toStr (getProp i k)) ks))).
Proof.
  intros Hne Hsep. unfold keyNameOf. rewrite Hsep.
  assert (Hfold : fold_left (fun acc k =>
                               String.append acc
                                 (String.append (String c rest) (toStr (getProp i k))))
                            ks EmptyString
                  = String.append (String c rest)
                      (join (String c rest) (map (fun k => toStr (getProp i k)) ks))).
  { rewrite (compound_fold (String c rest) (fun k => toStr (getProp i k))).
    destruct ks; [congruence | reflexivity]. }
  rewrite Hfold.
  change (substring_from 1 (String.append (String c rest)
                              (join (String c rest) (map (fun k => toStr (getProp i k)) ks))))
    with (String.append rest (join (String c rest) (map (fun k => toStr (getProp i k)) ks))).
  destruct (truthy (keyNamePrefix options)); reflexivity.
Qed.

Lemma keyNameOf_compound_format_witness :
  keyNameOf (KeyNames ["n"; "v"]) (mkOptions None None (Some "::")) itemA3 = ":a::3".
Proof.
  apply (keyNameOf_compound_format ["n"; "v"] (mkOptions None None (Some "::")) itemA3
           ":"%char ":"); [discriminate | reflexivity].
Defined.

End Normalize.

(** ** Cloud access tokens: the token cache *)

Module TokenCache.
Import Normalize.

(** A token object.  [expires_in] is what the token endpoint sent,
    [expiresAt] the property [cacheToken] adds; [None] is an absent
    (undefined) property. *)
Record Token : Type := mkToken {
  access_token : option string;
  expires_in : option Z;
  expiresAt : option JsNumber
}.

(** The [TokenCache] object: its [cache] dictionary and [latencyBuffer]. *)
Record t : Type := mkCache {
  cache : gmap string Token;
  latencyBuffer : Z
}.

(** [constructor()] *)
Definition new : t := mkCache ∅ 60.

(** JavaScript [a + b] for a number and a possibly undefined number. *)
Definition plus (a : Z) (b : option Z) : JsNumber :=
  match b with
  | Some b => Num (a + b)
  | None => NaN
  end.

Section WithClock.

(** [getCurrentUnixTimeInSeconds()] at the time of the call. *)
Variable now : Z.

(** [tokenIsValid(token)]; the argument is [None] for [undefined], which
    the method replaces by an empty object. *)
Definition tokenIsValid (self : t) (token : option Token) : bool :=
  let expiresAt := token ≫= expiresAt in
  match expiresAt with
  | None => false
  | Some NaN => false
  | Some (Num e) => now + latencyBuffer self <? e
  end.

(** [getToken(tokenId)]; [None] is [undefined]. *)
Definition getToken (self : t) (tokenId : string) : option Token :=
  let token := cache self !! tokenId in
  if tokenIsValid self token then token else None.

(** [removeToken(tokenId)] *)
Definition removeToken (self : t) (tokenId : string) : t :=
  mkCache (delete tokenId (cache self)) (latencyBuffer self).

(** [removeExpiredTokens()] *)
Definition removeExpiredTokens (self : t) : t :=
  mkCache (filter (fun kv => tokenIsValid self (Some kv.2) = true) (cache self))
          (latencyBuffer self).

(** [removeAllTokens()] *)
Definition removeAllTokens (self : t) : t := mkCache ∅ (latencyBuffer self).

(** [cacheToken(tokenId, token)]: the cache after the call and the token
    returned. *)
Definition cacheToken (self : t) (tokenId : string) (token : Token) : t * Token :=
  let self := removeExpiredTokens self in
  let expiresAt := plus now (expires_in token) in
  let token := mkToken (access_token token) (expires_in token) (Some expiresAt) in
  (mkCache (<[tokenId := token]> (cache self)) (latencyBuffer self), token).

End WithClock.

(** A cached entry for the token whose expiry is defined and strictly
    later than the current time plus the latency buffer. *)
Definition current (now : Z) (self : t) (tokenId : string) (token : Token) : Prop :=
  cache self !! tokenId = Some token /\
  exists e : Z, expiresAt token = Some (Num e) /\ now + latencyBuffer self < e.

Lemma tokenIsValid_true (now : Z) (self : t) (token : Token) :
  tokenIsValid now self (Some token) = true <->
  exists e : Z, expiresAt token = Some (Num e) /\ now + latencyBuffer self < e.
Proof.
  unfold tokenIsValid. simpl. destruct (expiresAt token) as [[|e]|].
  - split; [discriminate | intros (e & H & _); discriminate].
  - rewrite Z.ltb_lt. split.
    + intros H. exists e. split; [reflexivity | assumption].
    + intros (e' & H & Hlt). injection H as ->. assumption.
  - split; [discriminate | intros (e & H & _); discriminate].
Qed.

Lemma getToken_Some (now : Z) (self : t) (tokenId : string) (token : Token) :
  getToken now self tokenId = Some token <-> current now self tokenId token.
Proof.
  unfold getToken, current.
  destruct (cache self !! tokenId) as [tk|] eqn:Hc.
  - destruct (tokenIsValid now self (Some tk)) eqn:Hv.
    + apply tokenIsValid_true in Hv. split.
      * intros H. injection H as ->. split; [reflexivity | assumption].
      * intros [H _]. assumption.
    + split; [discriminate|]. intros [H Hcur]. injection H as ->.
      apply tokenIsValid_true in Hcur. congruence.
  - simpl. split; [discriminate | intros [H _]; discriminate].
Qed.

(** C4. [getToken] returns the cached token exactly when the cache has
    an entry for the id whose [expiresAt] is defined and strictly greater
    than the current Unix time plus the latency buffer, and [undefined]
    otherwise; a new cache has a latency buffer of 60 seconds. *)
Theorem getToken_iff (now : Z) (self : t) (tokenId : string) :
  (forall token : Token,
      getToken now self tokenId = Some token <-> current now self tokenId token) /\
  (getToken now self tokenId = None <->
   ~ exists token : Token, current now self tokenId token) /\
  latencyBuffer new = 60.
Proof.
  split; [intros token; apply getToken_Some|]. split; [|reflexivity].
  split.
  - intros Hn [token Hcur]. apply getToken_Some in Hcur. congruence.
  - intros Hn. destruct (getToken now self tokenId) as [token|] eqn:E; [|reflexivity].
    exfalso. apply Hn. exists token. now apply getToken_Some.
Qed.

Definition sampleToken : Token := mkToken (Some "abc") (Some 3600) (Some (Num 4600)).

Definition sampleCache : t := mkCache {[ "key-1" := sampleToken ]} 60.

Lemma getToken_iff_witness :
  getToken 1000 sampleCache "key-1" = Some sampleToken /\
  getToken 4540 sampleCache "key-1" = None.
Proof.
  split.
  - apply (proj1 (getToken_iff 1000 sampleCache "key-1")).
    split; [reflexivity|]. exists 4600. split; [reflexivity | simpl; lia].
  - apply (proj1 (proj2 (getToken_iff 4540 sampleCache "key-1"))).
    intros (token & Hc & e & He & Hlt).
    vm_compute in Hc. injection Hc as <-. injection He as <-. simpl in Hlt. lia.
Defined.

(** A token just cached is served as long as it lives longer than the
    latency buffer. *)
Lemma getToken_cacheToken (now : Z) (self : t) (tokenId : string) (token : Token) (n : Z) :
  expires_in token = Some n ->
  latencyBuffer self < n ->
  getToken now (cacheToken now self tokenId token).1 tokenId
  = Some (cacheToken now self tokenId token).2.
Proof.
  intros Hn Hlt. apply getToken_Some. unfold current, cacheToken. simpl.
  split; [apply lookup_insert_eq|].
  rewrite Hn. exists (now + n). split; [reflexivity | lia].
Qed.

(** Prune on insert: after [cacheToken] no entry of the cache is expired. *)
Lemma cacheToken_prunes (now : Z) (self : t) (tokenId other : string)
    (token tk : Token) :
  other <> tokenId ->
  cache (cacheToken now self tokenId token).1 !! other = Some tk ->
  tokenIsValid now self (Some tk) = true.
Proof.
  intros Hne. unfold cacheToken. simpl.
  rewrite lookup_insert_ne by congruence.
  intros H. apply map_lookup_filter_Some in H as [_ H]. exact H.
Qed.

(** *** Access tokens: the rest of the module *)

(** A Google Cloud service account, as the functions below read it. *)
Record ServiceAccount : Type := mkServiceAccount {
  serviceEmail : string;
  privateKeyId : string;
  privateKey : string;
  useServiceAccountToken : bool
}.

(** [getTokenId(serviceAccount)] *)
Definition getTokenId (serviceAccount : ServiceAccount) : string :=
  if negb (useServiceAccountToken serviceAccount) then privateKeyId serviceAccount
  else serviceEmail serviceAccount.

Definition METADATA_URL : string := "http://metadata.google.internal/computeMetadata".

(** The payload [getAccessToken] signs. *)
Record JwtPayload : Type := mkJwtPayload {
  iss : string;
  scope : string;
  aud : string;
  exp : Z;
  iat : Z
}.

(** The options of a request. *)
Record HttpOptions : Type := mkHttpOptions {
  method : string;
  headers : list (string * string);
  fullURI : string;
  form : list (string * string)
}.

Section AccessToken.

(** [jwt.sign(payload, privateKey, options)] with the fixed options of
    [getAccessToken] and the key id, and [requestsUtil.makeRequest]: taken
    as given.  [jwt.sign] is called synchronously and throws when it cannot
    sign with the key ([inl], the error); [inl] of [makeRequest] is the
    reason the request is rejected with. *)
Variable jwt_sign : JwtPayload -> string -> string -> string + string.
Variable makeRequest : HttpOptions -> string + Token.

(** The request [getAccessToken] builds when the cache has no token, or the
    error [jwt.sign] throws. *)
Definition tokenRequest (now : Z) (serviceAccount : ServiceAccount) : string + HttpOptions :=
  if useServiceAccountToken serviceAccount then
    inr (mkHttpOptions "GET" [("Metadata-Flavor", "Google")]
           (String.concat "" [METADATA_URL; "/v1/instance/service-accounts/";
                              serviceEmail serviceAccount; "/token"])
           [])
  else
    let scope := "https://www.googleapis.com/auth/monitoring https://www.googleapis.com/auth/logging.write" in
    let jwtAge := 60 * 60 in
    match jwt_sign (mkJwtPayload (serviceEmail serviceAccount) scope
                      "https://oauth2.googleapis.com/token" (now + jwtAge) now)
                   (privateKey serviceAccount) (privateKeyId serviceAccount) with
    | inl error => inl error
    | inr jwtRequest =>
        inr (mkHttpOptions "POST" [("Content-Type", "application/x-www-form-urlencoded")]
               "https://oauth2.googleapis.com/token"
               [("grant_type", "urn:ietf:params:oauth:grant-type:jwt-bearer");
                ("assertion", jwtRequest)])
    end.

(** Truthiness of [cachedToken && cachedToken.access_token]. *)
Definition cachedAccessToken (cachedToken : option Token) : option string :=
  match cachedToken ≫= access_token with
  | Some EmptyString => None
  | other => other
  end.

(** What a call of [getAccessToken] comes to: a promise fulfilled with the
    access token ([None] when the response has none), a promise rejected
    with the reason of the request, or an exception thrown by the call
    itself. *)
Inductive Answer : Type :=
| Resolves (accessToken : option string)
| Rejects (reason : string)
| Throws (error : string).

(** [getAccessToken(serviceAccount)] on the token cache [tokenCache],
    called at time [now]; the response of a request arrives at time
    [later].  The result is the answer, the token cache afterwards and the
    requests made. *)
Definition getAccessToken (now later : Z) (serviceAccount : ServiceAccount) (tokenCache : t)
  : Answer * t * list HttpOptions :=
  let tokenId := getTokenId serviceAccount in
  match cachedAccessToken (getToken now tokenCache tokenId) with
  | Some accessToken => (Resolves (Some accessToken), tokenCache, [])
  | None =>
      match tokenRequest now serviceAccount with
      | inl error => (Throws error, tokenCache, [])
      | inr httpOptions =>
          match makeRequest httpOptions with
          | inr token =>
              let cached := cacheToken later tokenCache tokenId token in
              (Resolves (access_token cached.2), cached.1, [httpOptions])
          | inl reason => (Rejects reason, tokenCache, [httpOptions])
          end
      end
  end.

(** [invalidateToken(serviceAccount)] *)
Definition invalidateToken (serviceAccount : ServiceAccount) (tokenCache : t) : t :=
  removeToken tokenCache (getTokenId serviceAccount).

(** A token that is cached and current is served without any request, and
    the cache stays as it is. *)
Lemma getAccessToken_hit (now later : Z) (serviceAccount : ServiceAccount)
    (tokenCache : t) (token : Token) (accessToken : string) :
  current now tokenCache (getTokenId serviceAccount) token ->
  access_token token = Some accessToken ->
  accessToken <> EmptyString ->
  getAccessToken now later serviceAccount tokenCache
  = (Resolves (Some accessToken), tokenCache, []).
Proof.
  intros Hcur Ha Hne. unfold getAccessToken.
  apply getToken_Some in Hcur. rewrite Hcur. unfold cachedAccessToken. simpl.
  rewrite Ha. destruct accessToken; [congruence | reflexivity].
Qed.

(** After a request that brought a token living longer than the latency
    buffer, a further call is served from the cache, with the same access
    token and without a request (and so without signing anything), at any
    time at which the token still has more than the latency buffer to
    live. *)
Theorem getAccessToken_cached (now later again after : Z) (serviceAccount : ServiceAccount)
    (tokenCache : t) (httpOptions : HttpOptions) (token : Token) (accessToken : string)
    (n : Z) :
  cachedAccessToken (getToken now tokenCache (getTokenId serviceAccount)) = None ->
  tokenRequest now serviceAccount = inr httpOptions ->
  makeRequest httpOptions = inr token ->
  access_token token = Some accessToken ->
  accessToken <> EmptyString ->
  expires_in token = Some n ->
  again + latencyBuffer tokenCache < later + n ->
  let first := getAccessToken now later serviceAccount tokenCache in
  first.1.1 = Resolves (Some accessToken) /\
  first.2 = [httpOptions] /\
  getAccessToken again after serviceAccount first.1.2
  = (Resolves (Some accessToken), first.1.2, []).
Proof.
  intros Hmiss Hopts Hreq Ha Hne Hn Hlt first.
  assert (E : first = (Resolves (Some accessToken),
                       (cacheToken later tokenCache (getTokenId serviceAccount) token).1,
                       [httpOptions])).
  { unfold first, getAccessToken. rewrite Hmiss, Hopts, Hreq. simpl. now rewrite Ha. }
  rewrite E. cbn [fst snd]. split; [reflexivity|]. split; [reflexivity|].
  apply (getAccessToken_hit again after serviceAccount _
           (mkToken (access_token token) (expires_in token) (Some (plus later (expires_in token))))).
  - split; [simpl; apply lookup_insert_eq|].
    exists (later + n). rewrite Hn. split; [reflexivity | simpl; lia].
  - exact Ha.
  - exact Hne.
Qed.

(** After [invalidateToken] the next call does not answer from the cache,
    whatever the cache held: it builds the token request and makes exactly
    that one request, or, when [jwt.sign] throws, it throws that error,
    makes no request and leaves the cache as it is.  For an account that
    uses the instance metadata token nothing is signed, so the request is
    always made. *)
Theorem getAccessToken_invalidated (now later : Z) (serviceAccount : ServiceAccount)
    (tokenCache : t) :
  let next := getAccessToken now later serviceAccount (invalidateToken serviceAccount tokenCache) in
  match tokenRequest now serviceAccount with
  | inr httpOptions =>
      next.2 = [httpOptions] /\
      match makeRequest httpOptions with
      | inr token => next.1.1 = Resolves (access_token token)
      | inl reason =>
          next.1 = (Rejects reason, invalidateToken serviceAccount tokenCache)
      end
  | inl error => next = (Throws error, invalidateToken serviceAccount tokenCache, [])
  end /\
  (useServiceAccountToken serviceAccount = true ->
   exists httpOptions : HttpOptions,
     tokenRequest now serviceAccount = inr httpOptions /\ next.2 = [httpOptions]).
Proof.
  intros next.
  assert (E : next
              = match tokenRequest now serviceAccount with
                | inl error => (Throws error, invalidateToken serviceAccount tokenCache, [])
                | inr httpOptions =>
                    match makeRequest httpOptions with
                    | inr token =>
                        let cached := cacheToken later (invalidateToken serviceAccount tokenCache)
                                        (getTokenId serviceAccount) token in
                        (Resolves (access_token cached.2), cached.1, [httpOptions])
                    | inl reason =>
                        (Rejects reason, invalidateToken serviceAccount tokenCache, [httpOptions])
                    end
                end).
  { unfold next, getAccessToken, invalidateToken, getToken, removeToken. simpl.
    rewrite lookup_delete_eq. reflexivity. }
  split.
  - rewrite E. destruct (tokenRequest now serviceAccount) as [error|httpOptions];
      [reflexivity|].
    destruct (makeRequest httpOptions) as [reason|token]; split; reflexivity.
  - intros Hmeta. rewrite E. unfold tokenRequest. rewrite Hmeta.
    eexists. split; [reflexivity|].
    match goal with |- context [makeRequest ?o] => destruct (makeRequest o) end; reflexivity.
Qed.

End AccessToken.

Lemma removeExpiredTokens_invisible (now : Z) (self : t) (tokenId : string) :
  getToken now (removeExpiredTokens now self) tokenId = getToken now self tokenId.
Proof.
  unfold getToken, removeExpiredTokens. simpl.
  destruct (cache self !! tokenId) as [tk|] eqn:Hc.
  - destruct (tokenIsValid now self (Some tk)) eqn:Hv.
    + assert (H : filter (fun kv => tokenIsValid now self (Some kv.2) = true) (cache self)
                  !! tokenId = Some tk).
      { apply map_lookup_filter_Some. split; assumption. }
      rewrite H. unfold tokenIsValid in *. simpl in *. now rewrite Hv.
    + assert (H : filter (fun kv => tokenIsValid now self (Some kv.2) = true) (cache self)
                  !! tokenId = None).
      { apply map_lookup_filter_None. right. intros tk' Hc'. simpl.
        rewrite Hc in Hc'. injection Hc' as <-. congruence. }
      rewrite H. reflexivity.
  - assert (H : filter (fun kv => tokenIsValid now self (Some kv.2) = true) (cache self)
                !! tokenId = None).
    { apply map_lookup_filter_None. now left. }
    rewrite H. reflexivity.
Qed.

(** Pruning the expired tokens does not change what [getToken] answers,
    for any id, and leaves only current tokens in the cache. *)
Theorem removeExpiredTokens_getToken (now : Z) (self : t) (tokenId : string) :
  getToken now (removeExpiredTokens now self) tokenId = getToken now self tokenId /\
  forall token : Token,
    cache (removeExpiredTokens now self) !! tokenId = Some token ->
    current now self tokenId token.
Proof.
  split; [apply removeExpiredTokens_invisible|].
  unfold removeExpiredTokens. simpl. intros token H.
  apply map_lookup_filter_Some in H as [Hc Hv]. simpl in Hv.
  split; [exact Hc | now apply tokenIsValid_true].
Qed.

(** Caching a token for one id does not change what [getToken] answers
    for any other id. *)
Theorem cacheToken_other (now : Z) (self : t) (tokenId other : string) (token : Token) :
  other <> tokenId ->
  getToken now (cacheToken now self tokenId token).1 other = getToken now self other.
Proof.
  intros Hne.
  rewrite <- (removeExpiredTokens_invisible now self other).
  unfold getToken, cacheToken. simpl. rewrite lookup_insert_ne by congruence. reflexivity.
Qed.

(** A token that comes without [expires_in], or with one that does not
    exceed the latency buffer, is cached but not served, not even at
    once. *)
Theorem cacheToken_not_served (now : Z) (self : t) (tokenId : string) (token : Token) :
  (forall n : Z, expires_in token = Some n -> n <= latencyBuffer self) ->
  getToken now (cacheToken now self tokenId token).1 tokenId = None /\
  is_Some (cache (cacheToken now self tokenId token).1 !! tokenId).
Proof.
  intros Hn. split.
  - unfold getToken, cacheToken, tokenIsValid. simpl. rewrite lookup_insert_eq. simpl.
    destruct (expires_in token) as [n|]; simpl; [|reflexivity].
    specialize (Hn n eq_refl). destruct (Z.ltb_spec (now + latencyBuffer self) (now + n));
      [lia | reflexivity].
  - unfold cacheToken. simpl. rewrite lookup_insert_eq. eauto.
Qed.

Definition keyAccount : ServiceAccount := mkServiceAccount "sa@example.com" "key-1" "pem" false.

Definition metadataAccount : ServiceAccount :=
  mkServiceAccount "sa@example.com" "key-1" "pem" true.

Definition sampleSign (payload : JwtPayload) (key keyId : string) : string + string :=
  inr "signed".

(** [jwt.sign] given a key it cannot sign with. *)
Definition failingSign (payload : JwtPayload) (key keyId : string) : string + string :=
  inl "secretOrPrivateKey must be an asymmetric key when using RS256".

Definition sampleRequest (options : HttpOptions) : string + Token :=
  inr (mkToken (Some "fresh") (Some 3600) None).

Lemma getAccessToken_hit_witness :
  getAccessToken sampleSign sampleRequest 1000 1001 keyAccount sampleCache
  = (Resolves (Some "abc"), sampleCache, []).
Proof.
  apply (getAccessToken_hit sampleSign sampleRequest 1000 1001 keyAccount sampleCache
           sampleToken "abc").
  - split; [reflexivity|]. exists 4600. split; [reflexivity | simpl; lia].
  - reflexivity.
  - discriminate.
Defined.

Lemma getAccessToken_cached_witness :
  getAccessToken sampleSign sampleRequest 4000 4002 keyAccount
    (getAccessToken sampleSign sampleRequest 1000 1001 keyAccount new).1.2
  = (Resolves (Some "fresh"),
     (getAccessToken sampleSign sampleRequest 1000 1001 keyAccount new).1.2, []).
Proof.
  apply (getAccessToken_cached sampleSign sampleRequest 1000 1001 4000 4002 keyAccount new
           (mkHttpOptions "POST" [("Content-Type", "application/x-www-form-urlencoded")]
              "https://oauth2.googleapis.com/token"
              [("grant_type", "urn:ietf:params:oauth:grant-type:jwt-bearer");
               ("assertion", "signed")])
           (mkToken (Some "fresh") (Some 3600) None) "fresh" 3600);
    try reflexivity; try discriminate; simpl; lia.
Defined.

Lemma getAccessToken_invalidated_witness :
  exists httpOptions : HttpOptions,
    tokenRequest failingSign 1000 metadataAccount = inr httpOptions /\
    (getAccessToken failingSign sampleRequest 1000 1001 metadataAccount
       (invalidateToken metadataAccount sampleCache)).2 = [httpOptions].
Proof.
  apply (proj2 (getAccessToken_invalidated failingSign sampleRequest 1000 1001
                  metadataAccount sampleCache) eq_refl).
Defined.

(** With a key [jwt.sign] cannot sign with, the call after [invalidateToken]
    throws and makes no request. *)
Example getAccessToken_throws :
  getAccessToken failingSign sampleRequest 1000 1001 keyAccount
    (invalidateToken keyAccount sampleCache)
  = (Throws "secretOrPrivateKey must be an asymmetric key when using RS256",
     invalidateToken keyAccount sampleCache, []).
Proof. reflexivity. Qed.

Lemma removeExpiredTokens_getToken_witness :
  current 1000 sampleCache "key-1" sampleToken.
Proof.
  apply (proj2 (removeExpiredTokens_getToken 1000 sampleCache "key-1") sampleToken).
  vm_compute. reflexivity.
Defined.

Lemma cacheToken_other_witness :
  getToken 1000 (cacheToken 1000 sampleCache "key-2" sampleToken).1 "key-1"
  = getToken 1000 sampleCache "key-1".
Proof. apply cacheToken_other. discriminate. Defined.

Lemma cacheToken_not_served_witness :
  getToken 1000 (cacheToken 1000 new "key-1" (mkToken (Some "abc") None None)).1 "key-1" = None.
Proof.
  apply (proj1 (cacheToken_not_served 1000 new "key-1" (mkToken (Some "abc") None None)
                  ltac:(intros n H; discriminate H))).
Defined.

End TokenCache.

(** ** Data pipeline: dispatch to consumers ([forwardData]) *)

Module DataPipeline.

(** The state in which a promise settles. *)
Inductive Settlement (Err : Type) : Type :=
| Fulfilled
| Rejected (reason : Err).
Arguments Fulfilled {Err}.
Arguments Rejected {Err} reason.

(** What a call that returns a promise can do: return a promise that is
    fulfilled with the given value or rejected, or throw before returning
    one. *)
Inductive Outcome (Err A : Type) : Type :=
| Resolves (value : A)
| Rejects (reason : Err)
| ThrowsSync (error : Err).
Arguments Resolves {Err A} value.
Arguments Rejects {Err A} reason.
Arguments ThrowsSync {Err A} error.

(** What a consumer handle gives back when it returns: a value that is not
    a promise, or a promise, which is still pending when the handle returns
    or settled already, with the state it settles in. *)
Inductive Returned (Err : Type) : Type :=
| Value
| Promise (pending : bool) (settles : Settlement Err).
Arguments Value {Err}.
Arguments Promise {Err} pending settles.

Section Forward.

(** Events (records handed to consumers), thrown values and the actions
    of a consumer's configuration. *)
Context {Event Err Action : Type}.

(** The consumer's configuration, as far as [forwardData] reads it. *)
Record Config : Type := mkConfig {
  type : string;
  traceName : string;
  actions : list Action
}.

(** The data context: the record and the ids of the consumers it is for. *)
Record DataCtx : Type := mkDataCtx {
  data : Event;
  destinationIds : list string
}.

(** The context object a consumer handle is called with ([tracer] and
    [metadata] are passed through untouched and left out). *)
Record Context : Type := mkContext {
  event : Event;
  config : Config;
  loggerName : string
}.

(** A registered consumer.  [filter_apply] is [consumer.filter.apply]: it
    returns a copy of the record or throws; [consumer] is the handle: its
    call throws ([inl]) or returns ([inr]), possibly a promise for work that
    goes on after the call. *)
Record Consumer : Type := mkConsumer {
  id : string;
  filter_apply : DataCtx -> Err + Event;
  consumerConfig : Config;
  consumer : Context -> Err + Returned Err
}.

(** What a dispatch does besides settling: handles invoked, what a handle
    returned (which the dispatch drops), exceptions logged, and at the end
    the settling of the promise it returned. *)
Inductive Effect : Type :=
| Invoked (consumerId : string) (context : Context)
| HandleReturned (consumerId : string) (returned : Returned Err)
| LoggedException (logger : string) (message : string) (error : Err)
| Settled.

(** [actionProcessor.processActions(event, actions)]: the event as the
    call leaves it and the error it threw, if any.  Taken as given. *)
Variable processActions : Event -> list Action -> Event * option Err.

(** The logger a consumer's context gets:
    [logger.getChild(`${type}.${traceName}`)]. *)
Definition childLogger (c : Config) : string :=
  String.append (type c) (String.append "." (traceName c)).

(** The executor of the promise that wraps one consumer: the state the
    promise settles in, and the effects in order.  An exception of
    [filter.apply], outside both [try] blocks, rejects the promise.  The
    wrapping promise is resolved in the [finally] of the call of the handle:
    what the handle returned is not looked at. *)
Definition wrapConsumer (dataCtx : DataCtx) (c : Consumer)
  : Settlement Err * list Effect :=
  match filter_apply c dataCtx with
  | inl err => (Rejected err, [])
  | inr ev =>
      let logger := childLogger (consumerConfig c) in
      let '(ev, thrown) := processActions ev (actions (consumerConfig c)) in
      let context := mkContext ev (consumerConfig c) logger in
      let log1 :=
        match thrown with
        | Some err =>
            [LoggedException logger "Error on attempt to process actions on consumer" err]
        | None => []
        end in
      let log2 :=
        match consumer c context with
        | inl err =>
            [LoggedException logger "Error on attempt to forward data to consumer" err]
        | inr returned => [HandleReturned (id c) returned]
        end in
      (Fulfilled, log1 ++ Invoked (id c) context :: log2)
  end.

(** Modelled from the spec: [promiseUtil.allSettled] (the file
    [src/lib/utils/promise.js] is missing).  Settle-all semantics: the
    returned promise is fulfilled, once every promise of the array has
    settled, with the array of their settlements. *)
Definition allSettled (promises : list (Settlement Err))
  : Outcome Err (list (Settlement Err)) :=
  Resolves promises.

(** The consumers a data context is for:
    [consumers.filter((c) => dataCtx.destinationIds.indexOf(c.id) > -1)]. *)
Definition targeted (dataCtx : DataCtx) (consumers : list Consumer) : list Consumer :=
  filter (fun c => id c ∈ destinationIds dataCtx) consumers.

(** [forwardData(dataCtx)].  [registered] is the value of
    [consumersHndlr.getConsumers()]: an array, or [None] for anything
    else. *)
Definition forwardData (registered : option (list Consumer)) (dataCtx : DataCtx)
  : Outcome Err (list (Settlement Err)) * list Effect :=
  match registered with
  | None => (Resolves [], [Settled])
  | Some consumers =>
      let wrapped := map (wrapConsumer dataCtx) (targeted dataCtx consumers) in
      (allSettled (map fst wrapped), concat (map snd wrapped) ++ [Settled])
  end.

(** The context [forwardData] builds for a consumer whose filter returned
    [ev]. *)
Definition contextOf (c : Consumer) (ev : Event) : Context :=
  mkContext (processActions ev (actions (consumerConfig c))).1
            (consumerConfig c) (childLogger (consumerConfig c)).

(** What the call of the handle of [c] leaves in the trace: the exception
    it threw, logged on the consumer's logger, or what it returned. *)
Definition handleEffect (c : Consumer) (context : Context) : Effect :=
  match consumer c context with
  | inl err =>
      LoggedException (childLogger (consumerConfig c))
        "Error on attempt to forward data to consumer" err
  | inr returned => HandleReturned (id c) returned
  end.

(** What the dispatch owes one targeted consumer: unless its filter threw,
    its handle is invoked before the promise settles, an exception of its
    actions is logged before that on its own logger, and the invocation is
    followed at once by the logging of the exception the call threw or by
    the return of the call. *)
Definition served (dataCtx : DataCtx) (c : Consumer) (trace : list Effect) : Prop :=
  forall ev : Event,
    filter_apply c dataCtx = inr ev ->
    exists before after : list Effect,
      trace = before ++ Invoked (id c) (contextOf c ev)
                     :: handleEffect c (contextOf c ev) :: after ++ [Settled] /\
      (forall err : Err,
          (processActions ev (actions (consumerConfig c))).2 = Some err ->
          LoggedException (childLogger (consumerConfig c))
            "Error on attempt to process actions on consumer" err ∈ before).

(** The errors a trace shows logged, in order. *)
Definition loggedErrors (trace : list Effect) : list Err :=
  omap (fun e => match e with
                 | LoggedException _ _ err => Some err
                 | _ => None
                 end) trace.

(** The errors thrown while the dispatch runs the code of consumer [c]: by
    its actions, then by the call of its handle. *)
Definition thrownBy (dataCtx : DataCtx) (c : Consumer) : list Err :=
  match filter_apply c dataCtx with
  | inl _ => []
  | inr ev =>
      match (processActions ev (actions (consumerConfig c))).2 with
      | Some err => [err]
      | None => []
      end ++
      match consumer c (contextOf c ev) with
      | inl err => [err]
      | inr _ => []
      end
  end.

(** The consumers whose handle returned a promise that is still pending
    when the trace ends. *)
Definition stillPending (trace : list Effect) : list string :=
  omap (fun e => match e with
                 | HandleReturned consumerId (Promise true _) => Some consumerId
                 | _ => None
                 end) trace.

(** The rejections of the promises the handles returned. *)
Definition rejections (trace : list Effect) : list Err :=
  omap (fun e => match e with
                 | HandleReturned _ (Promise _ (Rejected reason)) => Some reason
                 | _ => None
                 end) trace.

Lemma wrapConsumer_served (dataCtx : DataCtx) (c : Consumer) (ev : Event) :
  filter_apply c dataCtx = inr ev ->
  exists log1 : list Effect,
    (wrapConsumer dataCtx c).2
    = log1 ++ [Invoked (id c) (contextOf c ev); handleEffect c (contextOf c ev)] /\
    (forall err : Err,
        (processActions ev (actions (consumerConfig c))).2 = Some err ->
        LoggedException (childLogger (consumerConfig c))
          "Error on attempt to process actions on consumer" err ∈ log1).
Proof.
  intros Hf. unfold wrapConsumer, contextOf, handleEffect. rewrite Hf.
  destruct (processActions ev (actions (consumerConfig c))) as [ev' thrown]. simpl.
  eexists. split.
  - destruct (consumer c _); reflexivity.
  - intros err ->. apply list_elem_of_singleton. reflexivity.
Qed.

Lemma wrapConsumer_logged (dataCtx : DataCtx) (c : Consumer) :
  loggedErrors (wrapConsumer dataCtx c).2 = thrownBy dataCtx c.
Proof.
  unfold wrapConsumer, thrownBy, contextOf, loggedErrors.
  destruct (filter_apply c dataCtx) as [err|ev]; [reflexivity|].
  destruct (processActions ev (actions (consumerConfig c))) as [ev' thrown]. simpl.
  rewrite omap_app. simpl.
  destruct thrown; simpl; destruct (consumer c _); reflexivity.
Qed.

Lemma concat_split {A : Type} (ls : list (list A)) (l : list A) :
  l ∈ ls -> exists pre post : list A, concat ls = pre ++ l ++ post.
Proof.
  intros Hin. apply list_elem_of_split in Hin as (l1 & l2 & ->).
  exists (concat l1), (concat l2). rewrite concat_app. reflexivity.
Qed.

(** C3, amended.  [forwardData] always returns a promise that is
    fulfilled: it neither throws nor rejects, whatever the filters, the
    actions and the handles of the consumers do.  The promise carries one
    settlement per targeted consumer, and every targeted consumer is served:
    its handle is invoked before the promise settles whatever happened to
    the others, and the promise settles once every handle has been called
    and has returned or thrown.  The errors logged are exactly those thrown
    by the actions and by the calls of the handles, each on the consumer's
    own logger; what a handle returns is dropped, so a promise it returns is
    not waited for and its rejection is not logged. *)
Theorem forwardData_settles_all (registered : option (list Consumer)) (dataCtx : DataCtx) :
  exists settlements : list (Settlement Err),
    (forwardData registered dataCtx).1 = Resolves settlements /\
    (forall consumers : list Consumer,
        registered = Some consumers ->
        List.length settlements = List.length (targeted dataCtx consumers) /\
        (forall c : Consumer,
            c ∈ consumers -> id c ∈ destinationIds dataCtx ->
            served dataCtx c (forwardData registered dataCtx).2) /\
        loggedErrors (forwardData registered dataCtx).2
        = flat_map (thrownBy dataCtx) (targeted dataCtx consumers)).
Proof.
  destruct registered as [consumers|]; simpl.
  - eexists. split; [reflexivity|].
    intros ? [= <-]. split; [now rewrite !length_map|]. split.
    + intros c Hc Hid ev Hf.
      assert (Ht : c ∈ targeted dataCtx consumers).
      { unfold targeted. apply list_elem_of_filter. split; assumption. }
      destruct (wrapConsumer_served dataCtx c ev Hf) as (log1 & E & H1).
      destruct (concat_split (map snd (map (wrapConsumer dataCtx) (targeted dataCtx consumers)))
                  (wrapConsumer dataCtx c).2) as (pre & post & Hcat).
      { apply list_elem_of_fmap. exists (wrapConsumer dataCtx c). split; [reflexivity|].
        apply list_elem_of_fmap. exists c. split; [reflexivity | exact Ht]. }
      exists (pre ++ log1), post. rewrite Hcat, E.
      split; [now rewrite <- !app_assoc|].
      intros err He. apply elem_of_app. right. now apply H1.
    + unfold loggedErrors. rewrite omap_app. simpl. rewrite app_nil_r.
      induction (targeted dataCtx consumers) as [|c l IH]; [reflexivity|].
      cbn [map concat flat_map]. rewrite omap_app.
      fold (loggedErrors (wrapConsumer dataCtx c).2).
      now rewrite wrapConsumer_logged, IH.
  - exists []. split; [reflexivity|]. intros consumers [=].
Qed.

(** *** Further facts about the dispatch *)

(** The ids of the consumers whose handles a trace shows invoked, in
    order. *)
Definition invokedIds (trace : list Effect) : list string :=
  omap (fun e => match e with
                 | Invoked consumerId _ => Some consumerId
                 | _ => None
                 end) trace.

Definition filterReturns (dataCtx : DataCtx) (c : Consumer) : bool :=
  match filter_apply c dataCtx with
  | inr _ => true
  | inl _ => false
  end.

Lemma wrapConsumer_invoked (dataCtx : DataCtx) (c : Consumer) :
  invokedIds (wrapConsumer dataCtx c).2
  = if filterReturns dataCtx c then [id c] else [].
Proof.
  unfold wrapConsumer, filterReturns, invokedIds.
  destruct (filter_apply c dataCtx) as [err|ev]; [reflexivity|].
  destruct (processActions ev (actions (consumerConfig c))) as [ev' thrown]. simpl.
  rewrite omap_app. simpl.
  destruct thrown; simpl; destruct (consumer c _); reflexivity.
Qed.

(** The handles invoked by a dispatch are those of the registered consumers
    the record is for whose filter returned, each once and in the order of
    registration: no other consumer is invoked, and none twice. *)
Theorem forwardData_invokes (consumers : list Consumer) (dataCtx : DataCtx) :
  invokedIds (forwardData (Some consumers) dataCtx).2
  = map id (filter (fun c => filterReturns dataCtx c = true) (targeted dataCtx consumers)).
Proof.
  unfold forwardData. cbn [snd]. unfold invokedIds. rewrite omap_app. simpl.
  rewrite app_nil_r. fold (invokedIds (concat (map snd (map (wrapConsumer dataCtx)
                                                       (targeted dataCtx consumers))))).
  induction (targeted dataCtx consumers) as [|c l IH]; [reflexivity|].
  cbn [map concat]. unfold invokedIds in *. rewrite omap_app.
  fold (invokedIds (wrapConsumer dataCtx c).2). rewrite wrapConsumer_invoked, IH.
  rewrite filter_cons. destruct (filterReturns dataCtx c); simpl.
  - destruct (decide (true = true)); [reflexivity | congruence].
  - destruct (decide (false = true)); [congruence | reflexivity].
Qed.

(** The settlement the dispatch records for a consumer is a rejection
    exactly when the consumer's filter threw: an exception of its actions
    or of its handle never shows in the settlements. *)
Theorem forwardData_settlements (consumers : list Consumer) (dataCtx : DataCtx) :
  (forwardData (Some consumers) dataCtx).1
  = Resolves (map (fun c => match filter_apply c dataCtx with
                            | inl err => Rejected err
                            | inr _ => Fulfilled
                            end) (targeted dataCtx consumers)).
Proof.
  unfold forwardData, allSettled. cbn [fst]. f_equal. rewrite map_map.
  apply map_ext. intros c. unfold wrapConsumer.
  destruct (filter_apply c dataCtx) as [err|ev]; [reflexivity|].
  now destruct (processActions ev (actions (consumerConfig c))).
Qed.

End Forward.

(** Two consumers, both targeted: the first one's handle throws, the
    second one's returns. *)
Definition failing : Consumer (Event := string) (Err := string) (Action := string) :=
  mkConsumer "default::failing" (fun ctx => inr (data ctx))
             (mkConfig "Splunk" "default::failing" []) (fun _ => inl "boom").

Definition healthy : Consumer (Event := string) (Err := string) (Action := string) :=
  mkConsumer "default::healthy" (fun ctx => inr (data ctx))
             (mkConfig "Kafka" "default::healthy" []) (fun _ => inr Value).

(** A consumer whose handle returns the promise of a request that is under
    way and will fail. *)
Definition slow : Consumer (Event := string) (Err := string) (Action := string) :=
  mkConsumer "default::slow" (fun ctx => inr (data ctx))
             (mkConfig "ElasticSearch" "default::slow" [])
             (fun _ => inr (Promise true (Rejected "timeout"))).

Definition sampleCtx : DataCtx (Event := string) :=
  mkDataCtx "record" ["default::failing"; "default::healthy"].

Definition slowCtx : DataCtx (Event := string) :=
  mkDataCtx "record" ["default::slow"].

Definition noActions (ev : string) (_ : list string) : string * option string :=
  (ev, None).

(** C3, as stated, fails: the dispatch settles while the promise the
    handle of a targeted consumer returned is still pending, and the
    rejection of that promise is not logged. *)
Lemma forwardData_settles_early :
  forwardData noActions (Some [slow]) slowCtx
  = (Resolves [Fulfilled],
     [Invoked "default::slow"
        (mkContext "record" (mkConfig "ElasticSearch" "default::slow" [])
           "ElasticSearch.default::slow");
      HandleReturned "default::slow" (Promise true (Rejected "timeout"));
      Settled]) /\
  stillPending (forwardData noActions (Some [slow]) slowCtx).2 = ["default::slow"] /\
  rejections (forwardData noActions (Some [slow]) slowCtx).2 = ["timeout"] /\
  loggedErrors (forwardData noActions (Some [slow]) slowCtx).2 = [].
Proof. repeat split; vm_compute; reflexivity. Qed.

Lemma forwardData_settles_all_witness :
  served noActions sampleCtx healthy
    (forwardData noActions (Some [failing; healthy]) sampleCtx).2.
Proof.
  destruct (forwardData_settles_all noActions (Some [failing; healthy]) sampleCtx)
    as (settlements & _ & H).
  destruct (H [failing; healthy] eq_refl) as (_ & Hserved & _).
  apply Hserved.
  - apply list_elem_of_In. simpl. tauto.
  - apply list_elem_of_In. simpl. tauto.
Defined.

Example forwardData_sample :
  forwardData noActions (Some [failing; healthy]) sampleCtx
  = (Resolves [Fulfilled; Fulfilled],
     [Invoked "default::failing" (mkContext "record" (mkConfig "Splunk" "default::failing" []) "Splunk.default::failing");
      LoggedException "Splunk.default::failing" "Error on attempt to forward data to consumer" "boom";
      Invoked "default::healthy" (mkContext "record" (mkConfig "Kafka" "default::healthy" []) "Kafka.default::healthy");
      HandleReturned "default::healthy" Value;
      Settled]).
Proof. vm_compute. reflexivity. Qed.

End DataPipeline.

(** ** JSON documents *)

Module Json.

(** A JSON value; an object keeps its members in order. *)
Inductive t : Type :=
| JNull
| JBool (b : bool)
| JNum (z : Z)
| JStr (s : string)
| JArr (items : list t)
| JObj (members : list (string * t)).

(** [obj[key]] on a list of members; [None] is [undefined]. *)
Fixpoint lookup (key : string) (members : list (string * t)) : option t :=
  match members with
  | [] => None
  | (k, v) :: rest => if String.eqb k key then Some v else lookup key rest
  end.

(** [value[key]]; [None] is [undefined]. *)
Definition get (key : string) (value : t) : option t :=
  match value with
  | JObj members => lookup key members
  | _ => None
  end.

(** [obj[key] = v]: replaces the member in place, or appends it. *)
Fixpoint assign (key : string) (v : t) (members : list (string * t)) : list (string * t) :=
  match members with
  | [] => [(key, v)]
  | (k, old) :: rest =>
      if String.eqb k key then (k, v) :: rest else (k, old) :: assign key v rest
  end.

Definition set (key : string) (v : t) (value : t) : t :=
  match value with
  | JObj members => JObj (assign key v members)
  | other => other
  end.

End Json.

(** ** Config worker *)

Module ConfigWorker.
Import Json.

(** A normalized configuration: components and the producer-to-consumers
    table. *)
Record Configuration : Type := mkConfiguration {
  components : list Json.t;
  mappings : gmap string (list string)
}.

Definition BASE_CONFIG : Configuration := mkConfiguration [] ∅.

Definition BASE_DECLARATION : Json.t := JObj [("class", JStr "Telemetry")].

(** What is kept under the storage key: [{ raw: <declaration> }]. *)
Record StorageData : Type := mkStorageData { raw : option Json.t }.

Definition BASE_STORAGE_DATA : StorageData := mkStorageData None.

(** Modelled from the spec: the persistent storage ([persistentStorage] is
    missing), a key/value blob store of which the worker uses one key.
    [blob] is the value under that key, [None] when there is none; a read or
    a write can fail, and a write that fails leaves the blob as it was. *)
Record Storage : Type := mkStorage {
  blob : option StorageData;
  readable : bool;
  writable : bool
}.

Inductive Error : Type :=
| ValidationError (message : string)
| ValidatorNotAvailable
| StorageError
| ObjectNotFoundInConfigError (namespace : string)
| OverrideError (namespace : string)
| ProcessingError (message : string).

Inductive Level : Type := LException | LWarning | LInfo.

(** The events of the worker, each with its payload. *)
Inductive Emitted : Type :=
| Received (declaration : Json.t) (metadata : option string) (transactionID : nat)
| ValidationFailed (declaration : Json.t) (error : Error) (metadata : option string)
    (transactionID : nat)
| ValidationSucceed (declaration : Json.t) (metadata : option string) (transactionID : nat)
| Change (config : Configuration).

(** The worker and what it acts on: its [_currentConfig] (absent at first),
    the storage, the events emitted, the lines logged (debug lines left
    out), the source of [util.generateUuid], and the declarations handed to
    the TEEM reporter. *)
Record Worker : Type := mkWorker {
  _currentConfig : option Configuration;
  storage : Storage;
  emitted : list Emitted;
  logged : list (Level * string);
  uuids : nat;
  reported : list Json.t
}.

(** The [options] argument of [processDeclaration] before defaults. *)
Record Options : Type := mkOptions {
  expanded : option bool;
  save : option bool;
  metadata : option string;
  namespaceToUpdate : option string
}.

(** A promise-returning method of the worker: the worker after the call,
    and the value the promise is fulfilled with or the reason it is
    rejected with. *)
Definition M (A : Type) : Type := Worker -> (Error + A) * Worker.

Definition resolve {A : Type} (a : A) : M A := fun w => (inr a, w).

Definition reject {A : Type} (e : Error) : M A := fun w => (inl e, w).

(** [p.then(k)] *)
Definition andThen {A B : Type} (p : M A) (k : A -> M B) : M B :=
  fun w =>
    match p w with
    | (inr a, w') => k a w'
    | (inl e, w') => (inl e, w')
    end.

(** [p.catch(h)] *)
Definition catch {A : Type} (p : M A) (h : Error -> M A) : M A :=
  fun w =>
    match p w with
    | (inr a, w') => (inr a, w')
    | (inl e, w') => h e w'
    end.

Notation "'let*' x ':=' p 'in' k" := (andThen p (fun x => k))
  (at level 10, x name, p at level 100, k at level 200, only parsing).

Definition fromResult {A : Type} (r : Error + A) : M A := fun w => (r, w).

Definition generateUuid : M nat :=
  fun w => (inr (uuids w),
            mkWorker (_currentConfig w) (storage w) (emitted w) (logged w)
                     (S (uuids w)) (reported w)).

(** [safeEmitAsync] and [emitAsync]: the event reaches the listeners; what
    they do with it is theirs. *)
Definition emit (e : Emitted) : M unit :=
  fun w => (inr tt,
            mkWorker (_currentConfig w) (storage w) (emitted w ++ [e]) (logged w)
                     (uuids w) (reported w)).

Definition log (level : Level) (message : string) : M unit :=
  fun w => (inr tt,
            mkWorker (_currentConfig w) (storage w) (emitted w)
                     (logged w ++ [(level, message)]) (uuids w) (reported w)).

(** [this._currentConfig = conf] *)
Definition setCurrentConfig (conf : Configuration) : M unit :=
  fun w => (inr tt,
            mkWorker (Some conf) (storage w) (emitted w) (logged w) (uuids w) (reported w)).

(** The getter [currentConfig]: the value it returns, and the getter as a
    step of a promise chain. *)
Definition currentConfigOf (w : Worker) : Configuration :=
  default BASE_CONFIG (_currentConfig w).

Definition currentConfig : M Configuration :=
  fun w => (inr (currentConfigOf w), w).

(** [this.teemReporter.process(declaration)]: the declaration is handed
    to the reporter, which deals with its own failures. *)
Definition teemReport (declaration : Json.t) : M unit :=
  fun w => (inr tt,
            mkWorker (_currentConfig w) (storage w) (emitted w) (logged w) (uuids w)
                     (reported w ++ [declaration])).

(** [persistentStorage.get(STORAGE_KEY)] *)
Definition storageGet : M (option StorageData) :=
  fun w => if readable (storage w) then (inr (blob (storage w)), w)
           else (inl StorageError, w).

(** [persistentStorage.set(STORAGE_KEY, data)] *)
Definition storageSet (data : StorageData) : M unit :=
  fun w =>
    if writable (storage w) then
      (inr tt, mkWorker (_currentConfig w)
                        (mkStorage (Some data) (readable (storage w)) (writable (storage w)))
                        (emitted w) (logged w) (uuids w) (reported w))
    else (inl StorageError, w).

(** [persistentStorage.remove(STORAGE_KEY)] *)
Definition storageRemove : M unit :=
  fun w =>
    if writable (storage w) then
      (inr tt, mkWorker (_currentConfig w)
                        (mkStorage None (readable (storage w)) (writable (storage w)))
                        (emitted w) (logged w) (uuids w) (reported w))
    else (inl StorageError, w).

Section Worker.

(** The collaborators of the worker whose sources are not at hand, each a
    function of its arguments: the schema validators ([None] when the
    validator of a schema type is unavailable; the flag is the [expand]
    context), [configUtil.normalizeDeclaration],
    [configUtil.mergeDeclaration] and [configUtil.decryptSecrets]; [inl] is
    the message of the error they fail with. *)
Variable validators : string -> option (bool -> Json.t -> string + Json.t).
Variable normalizeDeclaration : Json.t -> string + Configuration.
Variable mergeDeclaration : string -> option Json.t -> Configuration -> string + Configuration.
Variable decryptSecrets : Configuration -> string + Configuration.

(** [validate(declaration, options)].  The validator works on the
    declaration in place; the declaration it is fulfilled with is the
    declaration as the validator leaves it, which is also what the next
    step of the caller finds in [declaration]. *)
Definition validate (declaration : Json.t) (schemaType : option string) (expand : bool)
  : M Json.t :=
  match validators (default "full" schemaType) with
  | Some validatorFunc =>
      match validatorFunc expand declaration with
      | inr config => resolve config
      | inl err => reject (ValidationError err)
      end
  | None => reject ValidatorNotAvailable
  end.

(** [expandDeclaration(declaration)] *)
Definition expandDeclaration (declaration : Json.t) : M Json.t :=
  validate declaration None true.

(** [getStorageData()] *)
Definition getStorageData : M StorageData :=
  let* data := storageGet in
  resolve (default BASE_STORAGE_DATA data).

(** [util.isObjectEmpty] on an optional JSON value: undefined, null and
    empty objects, arrays and strings are empty. *)
Definition isObjectEmpty (v : option Json.t) : bool :=
  match v with
  | None | Some JNull | Some (JObj []) | Some (JArr []) | Some (JStr EmptyString) => true
  | _ => false
  end.

(** [getDeclaration(namespace)] *)
Definition getDeclaration (namespace : option string) : M Json.t :=
  let* storageData := getStorageData in
  let declaration := default BASE_DECLARATION (raw storageData) in
  match namespace with
  | Some ns =>
      let declaration := Json.get ns declaration in
      if isObjectEmpty declaration then reject (ObjectNotFoundInConfigError ns)
      else resolve (default JNull declaration)
  | None => resolve declaration
  end.

(** [saveToStorage(storageData)] *)
Definition saveToStorage (storageData : StorageData) : M unit :=
  catch (storageSet storageData)
        (fun err =>
           let* _ := log LException "Unexpected error on attempt to save application state" in
           reject err).

(** The [skipUpdate] marker of [notifyConfigChange]. *)
Definition markSkipUpdate (ns : string) (component : Json.t) : Json.t :=
  match Json.get "namespace" component with
  | Some (JStr n) => if String.eqb n ns then component
                     else Json.set "skipUpdate" (JBool true) component
  | _ => Json.set "skipUpdate" (JBool true) component
  end.

(** [notifyConfigChange(newConfig, options)]: never rejected, its [catch]
    logs. *)
Definition notifyConfigChange (newConfig : Configuration) (ns : option string) : M unit :=
  catch
    (let* decryptedConfig := fromResult (sum_map ProcessingError id (decryptSecrets newConfig)) in
     let decryptedConfig :=
       match ns with
       | Some ns => mkConfiguration (map (markSkipUpdate ns) (components decryptedConfig))
                                    (mappings decryptedConfig)
       | None => decryptedConfig
       end in
     emit (Change decryptedConfig))
    (fun _ => log LException "notifyConfigChange error: ").

(** [processDeclaration(declaration, options)].  The declaration is the
    document the caller hands over, a copy of its own per call. *)
Definition processDeclaration (declaration : Json.t) (options : Options) : M Json.t :=
  let originDeclaration := declaration in
  let* transactionID := generateUuid in
  let expanded := default false (expanded options) in
  let save := default true (save options) in
  let* _ := emit (Received originDeclaration (metadata options) transactionID) in
  let* configs := catch
    (let* config := validate declaration None false in
     let* expandedConfig := expandDeclaration config in
     resolve (config, expandedConfig))
    (fun error =>
       let* _ := emit (ValidationFailed originDeclaration error (metadata options) transactionID) in
       reject error) in
  let validatedConfig := configs.1 in
  let storageData := mkStorageData (Some configs.1) in
  let expandedConfig := configs.2 in
  let* _ := emit (ValidationSucceed expandedConfig (metadata options) transactionID) in
  let* conf := match namespaceToUpdate options with
          | Some ns =>
              let* current := currentConfig in
              fromResult (sum_map ProcessingError id
                            (mergeDeclaration ns (Json.get ns expandedConfig) current))
          | None =>
              fromResult (sum_map ProcessingError id (normalizeDeclaration expandedConfig))
          end in
  let* _ := setCurrentConfig conf in
  let* _ := (if save then saveToStorage storageData else resolve tt) in
  let* current := currentConfig in
  let* _ := notifyConfigChange current (namespaceToUpdate options) in
  let* _ := teemReport validatedConfig in
  resolve (if expanded then expandedConfig else validatedConfig).

(** The first promise chain of [load()]: the stored declaration is read
    and processed. *)
Definition loadStored : M Json.t :=
  let* declaration := getDeclaration None in
  processDeclaration declaration
    (mkOptions None None (Some "Loading saved configuration") None).

(** The handler of the [catch] of [load()]. *)
Definition loadDefault : M Json.t :=
  let* _ := log LException "Unable to load and validate existing declaration" in
  let* _ := log LWarning "Going to try to load default empty declaration. Old declaration is still accessible via API" in
  processDeclaration BASE_DECLARATION
    (mkOptions None (Some false)
       (Some "Loading default config! Unable to load saved config, see error message in logs")
       None).

(** [load()] *)
Definition load : M Json.t :=
  let* declaration := catch loadStored (fun error => loadDefault) in
  let* _ := log LInfo "Application config loaded" in
  resolve declaration.

(** [cleanup()] *)
Definition cleanup : M unit :=
  fun w =>
    storageRemove (mkWorker None (storage w) (emitted w) (logged w) (uuids w) (reported w)).

(** The configurations announced by the [change] events emitted so far. *)
Definition changes (w : Worker) : list Configuration :=
  omap (fun e => match e with Change c => Some c | _ => None end) (emitted w).

(** *** Facts about the worker *)

Ltac unfold_worker :=
  unfold load, loadStored, loadDefault, processDeclaration, notifyConfigChange,
    saveToStorage, getDeclaration, getStorageData, expandDeclaration, validate,
    andThen, catch, resolve, reject, fromResult, generateUuid, emit, log,
    setCurrentConfig, currentConfig, currentConfigOf, storageGet, storageSet,
    teemReport, changes in *.

(** The stored declaration cannot be loaded: the promise chain that reads
    and processes it is rejected. *)
Definition loadFails (w : Worker) : Prop :=
  exists (error : Error) (failed : Worker), loadStored w = (inl error, failed).

(** The base declaration is valid: it passes validation and expansion and
    normalizes to [conf]; [v] is its validated form. *)
Definition baseValid (v : Json.t) (conf : Configuration) : Prop :=
  exists (vf : bool -> Json.t -> string + Json.t) (e : Json.t),
    validators "full" = Some vf /\ vf false BASE_DECLARATION = inr v /\
    vf true v = inr e /\ normalizeDeclaration e = inr conf.

Definition defaultMessage : string :=
  "Loading default config! Unable to load saved config, see error message in logs".

(** C5. When the stored declaration cannot be loaded and validated,
    [load()] processes the base declaration instead without saving it: the
    storage is left as it was, the promise of [load()] is fulfilled with the
    validated base declaration, and the current configuration is the one
    the base declaration normalizes to. *)
Theorem load_fallback (w : Worker) (v : Json.t) (conf : Configuration) :
  loadFails w ->
  baseValid v conf ->
  exists w' : Worker,
    load w = (inr v, w') /\
    storage w' = storage w /\
    _currentConfig w' = Some conf /\
    (exists tid : nat, Received BASE_DECLARATION (Some defaultMessage) tid ∈ emitted w') /\
    (LWarning, "Going to try to load default empty declaration. Old declaration is still accessible via API") ∈ logged w'.
Proof.
  intros (error & failed & Hfail) (vf & e & Hvf & Hv & He & Hn).
  unfold load, catch, andThen at 1 2. rewrite Hfail.
  assert (Hst : storage failed = storage w).
  { clear Hv He Hn. unfold_worker. simpl in *.
    destruct (readable (storage w)); simpl in *; [|now injection Hfail as _ <-].
    rewrite Hvf in Hfail. simpl in Hfail.
    destruct (vf false _) as [?|v0]; simpl in *; [now injection Hfail as _ <-|].
    destruct (vf true v0) as [?|e0]; simpl in *; [now injection Hfail as _ <-|].
    destruct (normalizeDeclaration e0) as [?|c0]; simpl in *; [now injection Hfail as _ <-|].
    destruct (writable (storage w)); simpl in *; [|now injection Hfail as _ <-].
    destruct (decryptSecrets c0); simpl in *; discriminate Hfail. }
  clear Hfail. unfold_worker. simpl. rewrite Hvf. simpl. rewrite Hv. simpl.
  rewrite He. simpl. rewrite Hn. simpl.
  destruct (decryptSecrets conf) as [msg|dc]; simpl.
  - eexists. split; [reflexivity|]. simpl. split; [exact Hst|]. split; [reflexivity|].
    split.
    + exists (uuids failed). rewrite !elem_of_app, !list_elem_of_singleton. tauto.
    + rewrite !elem_of_app, !list_elem_of_singleton. tauto.
  - eexists. split; [reflexivity|]. simpl. split; [exact Hst|]. split; [reflexivity|].
    split.
    + exists (uuids failed). rewrite !elem_of_app, !list_elem_of_singleton. tauto.
    + rewrite !elem_of_app, !list_elem_of_singleton. tauto.
Qed.

(** *** The rest of the worker *)

Definition NAMESPACE_CLASS_NAME : string := "Telemetry_Namespace".

(** JavaScript [v || {}] on an optional JSON value. *)
Definition orEmptyObject (v : option Json.t) : Json.t :=
  match v with
  | None | Some JNull | Some (JBool false) | Some (JNum 0) | Some (JStr EmptyString) => JObj []
  | Some other => other
  end.

(** The check of [processNamespaceDeclaration] on what the declaration has
    under the name: an object of another class cannot be overridden. *)
Definition checkOverride (namespace : string) (existing : option Json.t) : M unit :=
  match existing with
  | Some JNull => reject (ProcessingError "TypeError")
  | Some (JObj _ as object) | Some (JArr _ as object) =>
      match Json.get "class" object with
      | Some (JStr class) =>
          if String.eqb class NAMESPACE_CLASS_NAME then resolve tt
          else reject (OverrideError namespace)
      | _ => reject (OverrideError namespace)
      end
  | _ => resolve tt
  end.

(** [processNamespaceDeclaration(namespaceDeclaration, namespace, options)];
    the stored declaration is an object. *)
Definition processNamespaceDeclaration (namespaceDeclaration : option Json.t)
    (namespace : string) (options : Options) : M Json.t :=
  let namespaceDeclaration := orEmptyObject namespaceDeclaration in
  let* _ := validate namespaceDeclaration (Some NAMESPACE_CLASS_NAME) false in
  let* declaration := getDeclaration None in
  let* _ := checkOverride namespace (Json.get namespace declaration) in
  let options :=
    mkOptions (expanded options) (save options) (metadata options) (Some namespace) in
  let declaration := Json.set namespace namespaceDeclaration declaration in
  let* fullConfig := processDeclaration declaration options in
  resolve (orEmptyObject (Json.get namespace fullConfig)).

Ltac unfold_ops :=
  unfold processNamespaceDeclaration, checkOverride, cleanup, storageRemove in *;
  unfold_worker.

(** The declaration fails validation or expansion with the message. *)
Definition invalid (d : Json.t) (message : string) : Prop :=
  exists vf : bool -> Json.t -> string + Json.t,
    validators "full" = Some vf /\
    (vf false d = inl message \/
     exists v : Json.t, vf false d = inr v /\ vf true v = inl message).

(** A declaration that fails validation or expansion is rejected with a
    validation error; the current configuration, the storage and the TEEM
    reports stay as they were, no [change] is announced, and the [received]
    and [validationFailed] events carry one transaction id. *)
Theorem processDeclaration_invalid (d : Json.t) (o : Options) (w : Worker) (message : string) :
  invalid d message ->
  exists w' : Worker,
    processDeclaration d o w = (inl (ValidationError message), w') /\
    _currentConfig w' = _currentConfig w /\
    storage w' = storage w /\
    reported w' = reported w /\
    emitted w' = emitted w ++ [Received d (metadata o) (uuids w);
                               ValidationFailed d (ValidationError message) (metadata o)
                                                (uuids w)].
Proof.
  intros (vf & Hvf & Hfail). unfold_worker. simpl. rewrite Hvf. simpl.
  destruct Hfail as [Hv|(v & Hv & He)].
  - rewrite Hv. simpl. eexists. split; [reflexivity|]. simpl.
    rewrite <- app_assoc. repeat split.
  - rewrite Hv. simpl. rewrite He. simpl. eexists. split; [reflexivity|]. simpl.
    rewrite <- app_assoc. repeat split.
Qed.

(** What was processed and saved is what [getDeclaration] returns next:
    after a successful [processDeclaration] that saves and returns the
    validated declaration, [getDeclaration()] is fulfilled with the same
    declaration. *)
Theorem processDeclaration_getDeclaration (d : Json.t) (o : Options) (w w1 : Worker)
    (r : Json.t) :
  save o <> Some false ->
  expanded o <> Some true ->
  readable (storage w) = true ->
  processDeclaration d o w = (inr r, w1) ->
  getDeclaration None w1 = (inr r, w1).
Proof.
  intros Hsave Hexp Hread H. unfold_worker. simpl in *.
  assert (Hs : default true (save o) = true) by (destruct (save o) as [[]|]; simpl; congruence).
  assert (He : default false (expanded o) = false)
    by (destruct (expanded o) as [[]|]; simpl; congruence).
  rewrite Hs, He in H. clear Hs He Hsave Hexp.
  destruct (validators "full") as [vf|]; simpl in *; [|discriminate].
  destruct (vf false d) as [?|v]; simpl in *; [discriminate|].
  destruct (vf true v) as [?|e]; simpl in *; [discriminate|].
  destruct (namespaceToUpdate o) as [ns|]; simpl in *.
  - destruct (mergeDeclaration ns (get ns e) (default BASE_CONFIG (_currentConfig w)))
      as [?|conf]; simpl in *; [discriminate|].
    destruct (writable (storage w)); simpl in *; [|discriminate].
    destruct (decryptSecrets conf); simpl in *; injection H as <- <-; simpl;
      rewrite Hread; reflexivity.
  - destruct (normalizeDeclaration e) as [?|conf]; simpl in *; [discriminate|].
    destruct (writable (storage w)); simpl in *; [|discriminate].
    destruct (decryptSecrets conf); simpl in *; injection H as <- <-; simpl;
      rewrite Hread; reflexivity.
Qed.

(** When the validated declaration cannot be saved the promise is rejected
    with the storage error and no [change] is announced, but the current
    configuration has been replaced already. *)
Theorem processDeclaration_save_fails (d : Json.t) (o : Options) (w : Worker)
    (vf : bool -> Json.t -> string + Json.t) (v e : Json.t) (conf : Configuration) :
  validators "full" = Some vf -> vf false d = inr v -> vf true v = inr e ->
  namespaceToUpdate o = None -> normalizeDeclaration e = inr conf ->
  save o <> Some false ->
  writable (storage w) = false ->
  exists w' : Worker,
    processDeclaration d o w = (inl StorageError, w') /\
    _currentConfig w' = Some conf /\
    storage w' = storage w /\
    changes w' = changes w /\
    reported w' = reported w.
Proof.
  intros Hvf Hv He Hns Hn Hsave Hw. unfold_worker. simpl.
  assert (Hs : default true (save o) = true) by (destruct (save o) as [[]|]; simpl; congruence).
  rewrite Hs, Hvf, Hns. simpl. rewrite Hv. simpl. rewrite He. simpl. rewrite Hn. simpl.
  rewrite Hw. simpl. eexists. split; [reflexivity|]. simpl.
  repeat split. rewrite !omap_app. simpl. now rewrite !app_nil_r.
Qed.

(** With [save: false] the storage is never written, whatever the outcome
    of the processing. *)
Theorem processDeclaration_no_save (d : Json.t) (o : Options) (w : Worker) :
  save o = Some false ->
  storage (processDeclaration d o w).2 = storage w.
Proof.
  intros Hsave. unfold_worker. rewrite Hsave. simpl.
  destruct (validators "full") as [vf|]; simpl; [|reflexivity].
  destruct (vf false d) as [?|v]; simpl; [reflexivity|].
  destruct (vf true v) as [?|e]; simpl; [reflexivity|].
  destruct (namespaceToUpdate o) as [ns|]; simpl.
  - destruct (mergeDeclaration ns (get ns e) (default BASE_CONFIG (_currentConfig w)));
      simpl; [reflexivity|].
    destruct (decryptSecrets c); reflexivity.
  - destruct (normalizeDeclaration e); simpl; [reflexivity|].
    destruct (decryptSecrets c); reflexivity.
Qed.

(** [cleanup()] drops the current configuration even when the stored
    declaration cannot be removed; when it can, the worker is back at the
    base configuration and [getDeclaration()] gives the base declaration. *)
Theorem cleanup_resets (w : Worker) :
  currentConfigOf (cleanup w).2 = BASE_CONFIG /\
  (writable (storage w) = false -> (cleanup w).1 = inl StorageError) /\
  (writable (storage w) = true -> readable (storage w) = true ->
   (cleanup w).1 = inr tt /\
   getDeclaration None (cleanup w).2 = (inr BASE_DECLARATION, (cleanup w).2)).
Proof.
  unfold_ops. simpl. destruct (writable (storage w)) eqn:Hw; simpl.
  - split; [reflexivity|]. split; [discriminate|]. intros _ Hr. rewrite Hr. split; reflexivity.
  - split; [reflexivity|]. split; [reflexivity | discriminate].
Qed.

(** A namespace declaration that would take the place of an object of
    another class is rejected, whether it validates or not, before anything
    happens: the worker is left exactly as it was. *)
Theorem processNamespaceDeclaration_rejected (nsDecl : option Json.t) (namespace : string)
    (o : Options) (w : Worker) (stored : Json.t) (members : list (string * Json.t)) :
  getDeclaration None w = (inr stored, w) ->
  Json.get namespace stored = Some (JObj members) ->
  Json.get "class" (JObj members) <> Some (JStr NAMESPACE_CLASS_NAME) ->
  exists error : Error, processNamespaceDeclaration nsDecl namespace o w = (inl error, w).
Proof.
  intros Hget Hns Hclass. unfold processNamespaceDeclaration, andThen.
  destruct (validate (orEmptyObject nsDecl) (Some NAMESPACE_CLASS_NAME) false w)
    as [[error|?] w0] eqn:Hv.
  - assert (w0 = w) as ->.
    { unfold validate, reject, resolve in Hv.
      destruct (validators _) as [vf|]; [destruct (vf false _)|]; now injection Hv. }
    now exists error.
  - assert (w0 = w) as ->.
    { unfold validate, reject, resolve in Hv.
      destruct (validators _) as [vf|]; [destruct (vf false _)|]; now injection Hv. }
    rewrite Hget, Hns. unfold checkOverride.
    destruct (get "class" (JObj members)) as [[| | |class| |]|] eqn:Hc;
      try (eexists; reflexivity).
    destruct (String.eqb_spec class NAMESPACE_CLASS_NAME) as [->|Hne];
      [congruence | eexists; reflexivity].
Qed.

Lemma lookup_assign (key : string) (v : Json.t) (members : list (string * Json.t)) :
  Json.lookup key (Json.assign key v members) = Some v.
Proof.
  induction members as [|[k old] members IH]; simpl.
  - now rewrite String.eqb_refl.
  - destruct (String.eqb_spec k key) as [->|Hne]; simpl.
    + now rewrite String.eqb_refl.
    + destruct (String.eqb_spec k key); [contradiction | exact IH].
Qed.

Lemma lookup_assign_ne (key other : string) (v : Json.t) (members : list (string * Json.t)) :
  other <> key ->
  Json.lookup other (Json.assign key v members) = Json.lookup other members.
Proof.
  intros Hne. induction members as [|[k old] members IH]; simpl.
  - destruct (String.eqb_spec key other); [congruence | reflexivity].
  - destruct (String.eqb_spec k key) as [->|Hk]; simpl.
    + destruct (String.eqb_spec key other); [congruence | reflexivity].
    + destruct (String.eqb_spec k other); [reflexivity | exact IH].
Qed.

(** The component belongs to the namespace. *)
Definition inNamespace (ns : string) (component : Json.t) : Prop :=
  Json.get "namespace" component = Some (JStr ns).

(** In the [change] event of a namespace update every component is
    announced, in order: a component of the namespace as it is, a component
    of another namespace with [skipUpdate: true] added and its other
    members untouched. *)
Theorem notifyConfigChange_skipUpdate (newConfig decrypted : Configuration) (ns : string)
    (w : Worker) :
  decryptSecrets newConfig = inr decrypted ->
  exists announced : Configuration,
    notifyConfigChange newConfig (Some ns) w
    = (inr tt, mkWorker (_currentConfig w) (storage w) (emitted w ++ [Change announced])
                        (logged w) (uuids w) (reported w)) /\
    mappings announced = mappings decrypted /\
    Forall2 (fun component marked =>
               forall members, component = JObj members ->
                 (inNamespace ns component -> marked = component) /\
                 (~ inNamespace ns component ->
                  Json.get "skipUpdate" marked = Some (JBool true) /\
                  forall key, key <> "skipUpdate" ->
                              Json.get key marked = Json.get key component))
            (components decrypted) (components announced).
Proof.
  intros Hd. unfold notifyConfigChange, catch, andThen, fromResult, emit. rewrite Hd. simpl.
  eexists. split; [reflexivity|]. simpl. split; [reflexivity|].
  induction (components decrypted) as [|c l IH]; simpl; constructor; [|exact IH].
  intros members ->. unfold inNamespace, markSkipUpdate. simpl.
  destruct (lookup "namespace" members) as [[| | |n| |]|] eqn:Hn;
    try (split; [discriminate|]; intros _; split;
         [apply lookup_assign | intros key Hk; now apply lookup_assign_ne]).
  destruct (String.eqb_spec n ns) as [->|Hne].
  - split; [reflexivity|]. intros H. now exfalso.
  - split; [congruence|]. intros _. split;
      [apply lookup_assign | intros key Hk; now apply lookup_assign_ne].
Qed.

End Worker.

(** A stand-in for the collaborators: every declaration with a [class]
    member is valid and stays as it is, and normalizes to a configuration
    with no components. *)
Definition sampleValidators (schema : string)
  : option (bool -> Json.t -> string + Json.t) :=
  Some (fun _ d => match Json.get "class" d with
                   | Some _ => inr d
                   | None => inl "should have required property 'class'"
                   end).

Definition sampleNormalize (d : Json.t) : string + Configuration := inr BASE_CONFIG.

Definition sampleMerge (ns : string) (d : option Json.t) (c : Configuration)
  : string + Configuration := inr c.

Definition sampleDecrypt (c : Configuration) : string + Configuration := inr c.

Definition freshWorker (stored : option Json.t) : Worker :=
  mkWorker None (mkStorage (Some (mkStorageData stored)) true true) [] [] 0 [].

Definition sampleProcess (d : Json.t) (o : Options) : M Json.t :=
  processDeclaration sampleValidators sampleNormalize sampleMerge sampleDecrypt d o.

Definition noOptions : Options := mkOptions None None None None.

(** A stored declaration without [class] does not validate; the worker
    falls back to the base declaration and the stored one stays. *)
Definition brokenDeclaration : Json.t := JObj [("My_Listener", JObj [])].

Lemma load_fallback_witness :
  exists w' : Worker,
    load sampleValidators sampleNormalize sampleMerge sampleDecrypt
         (freshWorker (Some brokenDeclaration)) = (inr BASE_DECLARATION, w') /\
    blob (storage w') = Some (mkStorageData (Some brokenDeclaration)).
Proof.
  destruct (load_fallback sampleValidators sampleNormalize sampleMerge sampleDecrypt
              (freshWorker (Some brokenDeclaration)) BASE_DECLARATION BASE_CONFIG)
    as (w' & Hload & Hst & _).
  - eexists _, _. vm_compute. reflexivity.
  - eexists _, BASE_DECLARATION. repeat split; reflexivity.
  - exists w'. split; [exact Hload|]. rewrite Hst. reflexivity.
Defined.

(** Witnesses of the further facts about the worker. *)

Definition noClassMessage : string := "should have required property 'class'".

Lemma processDeclaration_invalid_witness :
  exists w' : Worker,
    sampleProcess brokenDeclaration noOptions (freshWorker None)
    = (inl (ValidationError noClassMessage), w') /\
    _currentConfig w' = None /\ storage w' = storage (freshWorker None).
Proof.
  destruct (processDeclaration_invalid sampleValidators sampleNormalize sampleMerge
              sampleDecrypt brokenDeclaration noOptions (freshWorker None) noClassMessage)
    as (w' & H & Hc & Hs & _).
  - eexists. split; [reflexivity|]. left. reflexivity.
  - exists w'. split; [exact H|]. split; assumption.
Defined.

Lemma processDeclaration_getDeclaration_witness :
  getDeclaration None (sampleProcess BASE_DECLARATION noOptions (freshWorker None)).2
  = (inr BASE_DECLARATION, (sampleProcess BASE_DECLARATION noOptions (freshWorker None)).2).
Proof.
  apply (processDeclaration_getDeclaration sampleValidators sampleNormalize sampleMerge
           sampleDecrypt BASE_DECLARATION noOptions (freshWorker None)); try discriminate;
    reflexivity.
Defined.

Definition readOnlyWorker : Worker :=
  mkWorker None (mkStorage None true false) [] [] 0 [].

Lemma processDeclaration_save_fails_witness :
  exists w' : Worker,
    sampleProcess BASE_DECLARATION noOptions readOnlyWorker = (inl StorageError, w') /\
    _currentConfig w' = Some BASE_CONFIG.
Proof.
  destruct (processDeclaration_save_fails sampleValidators sampleNormalize sampleMerge
              sampleDecrypt BASE_DECLARATION noOptions readOnlyWorker
              (fun _ d => match Json.get "class" d with
                          | Some _ => inr d
                          | None => inl noClassMessage
                          end)
              BASE_DECLARATION BASE_DECLARATION BASE_CONFIG)
    as (w' & H & Hc & _); try reflexivity; try discriminate.
  exists w'. split; assumption.
Defined.

Lemma processDeclaration_no_save_witness :
  storage (sampleProcess BASE_DECLARATION (mkOptions None (Some false) None None)
             (freshWorker (Some brokenDeclaration))).2
  = storage (freshWorker (Some brokenDeclaration)).
Proof.
  apply (processDeclaration_no_save sampleValidators sampleNormalize sampleMerge sampleDecrypt).
  reflexivity.
Defined.

Lemma cleanup_resets_witness :
  getDeclaration None (cleanup (freshWorker (Some brokenDeclaration))).2
  = (inr BASE_DECLARATION, (cleanup (freshWorker (Some brokenDeclaration))).2).
Proof.
  apply (proj2 (proj2 (proj2 (cleanup_resets (freshWorker (Some brokenDeclaration))))
                  eq_refl eq_refl)).
Defined.

(** A stored declaration with a listener; a namespace of the listener's
    name cannot be declared. *)
Definition listenerDeclaration : Json.t :=
  JObj [("class", JStr "Telemetry");
        ("My_Listener", JObj [("class", JStr "Telemetry_Listener")])].

Lemma processNamespaceDeclaration_rejected_witness :
  exists error : Error,
    processNamespaceDeclaration sampleValidators sampleNormalize sampleMerge sampleDecrypt
      (Some (JObj [("class", JStr "Telemetry_Namespace")])) "My_Listener" noOptions
      (freshWorker (Some listenerDeclaration))
    = (inl error, freshWorker (Some listenerDeclaration)).
Proof.
  apply (processNamespaceDeclaration_rejected sampleValidators sampleNormalize sampleMerge
           sampleDecrypt _ "My_Listener" noOptions (freshWorker (Some listenerDeclaration))
           listenerDeclaration [("class", JStr "Telemetry_Listener")]);
    [reflexivity | reflexivity | discriminate].
Defined.

Definition twoNamespaces : Configuration :=
  mkConfiguration
    [JObj [("id", JStr "f5telemetry_default::My_Listener");
           ("namespace", JStr "f5telemetry_default")];
     JObj [("id", JStr "My_Namespace::My_Listener"); ("namespace", JStr "My_Namespace")]]
    ∅.

Lemma notifyConfigChange_skipUpdate_witness :
  exists announced : Configuration,
    (notifyConfigChange sampleDecrypt twoNamespaces (Some "My_Namespace") (freshWorker None)).1
    = inr tt /\
    emitted (notifyConfigChange sampleDecrypt twoNamespaces (Some "My_Namespace")
               (freshWorker None)).2 = [Change announced] /\
    mappings announced = ∅.
Proof.
  destruct (notifyConfigChange_skipUpdate sampleDecrypt twoNamespaces twoNamespaces
              "My_Namespace" (freshWorker None) eq_refl) as (announced & H & Hm & _).
  exists announced. rewrite H. split; [reflexivity|]. split; [reflexivity | exact Hm].
Defined.

End ConfigWorker.

(** ** Data receiver: restart discipline *)

Module DataReceiver.

(** The states of a receiver. *)
Inductive State : Type :=
| NEW
| STARTING
| RUNNING
| STOPPING
| STOPPED
| DESTROYED.

(** The bound on consecutive restart attempts. *)
Definition MAX_RESTART_ATTEMPTS : nat := 10.

(** A receiver: its state, and the number of restart attempts made in a
    row by the restart it is in or was last in (all of them failed, but
    the last one when the state is [RUNNING]). *)
Record Receiver : Type := mkReceiver {
  state : State;
  attempts : nat
}.

Definition new : Receiver := mkReceiver NEW 0.

(** Modelled from the spec: one restart attempt of the receiver (the file
    [src/lib/eventListener/baseDataReceiver.js] is missing): close the
    sockets, wait [RESTART_DELAY], reopen them.  [opened] tells whether
    reopening succeeded; the receiver is back in [RUNNING] if it did and
    stays [STOPPED] if it did not. *)
Definition attempt (opened : bool) (r : Receiver) : Receiver :=
  mkReceiver (if opened then RUNNING else STOPPED) (S (attempts r)).

(** Modelled from the spec: the bounded retry policy of the restart loop.
    [opens n] tells whether reopening succeeds at the [n]-th attempt in a
    row; when the budget of attempts is used up the receiver gives up and
    is [DESTROYED]. *)
Fixpoint restartLoop (budget : nat) (opens : nat -> bool) (r : Receiver) : Receiver :=
  match budget with
  | O => mkReceiver DESTROYED (attempts r)
  | S budget' =>
      let r := attempt (opens (S (attempts r))) r in
      match state r with
      | RUNNING => r
      | _ => restartLoop budget' opens r
      end
  end.

(** Modelled from the spec: [safeRestart()], which an error in [RUNNING]
    triggers. *)
Definition safeRestart (opens : nat -> bool) (r : Receiver) : Receiver :=
  match state r with
  | RUNNING => restartLoop MAX_RESTART_ATTEMPTS opens (mkReceiver RUNNING 0)
  | _ => r
  end.

(** What happens to a receiver: it is started (and the sockets open or
    not), stopped, destroyed, or it catches an error. *)
Inductive Event : Type :=
| Start (opened : bool)
| Stop
| Destroy
| Failure (opens : nat -> bool).

(** Modelled from the spec: the state machine of a receiver,
    [NEW -> STARTING -> RUNNING -> STOPPING -> STOPPED] with the absorbing
    state [DESTROYED]; the transient states [STARTING] and [STOPPING] are
    passed through within one step. *)
Definition step (r : Receiver) (e : Event) : Receiver :=
  match state r, e with
  | DESTROYED, _ => r
  | _, Destroy => mkReceiver DESTROYED (attempts r)
  | (NEW | STOPPED), Start opened =>
      mkReceiver (if opened then RUNNING else STOPPED) (attempts r)
  | (NEW | RUNNING | STOPPED), Stop => mkReceiver STOPPED (attempts r)
  | RUNNING, Failure opens => safeRestart opens r
  | _, _ => r
  end.

Definition run (r : Receiver) (events : list Event) : Receiver :=
  fold_left step events r.

(** *** Facts *)

Lemma restartLoop_attempts (budget : nat) (opens : nat -> bool) (r : Receiver) :
  (attempts (restartLoop budget opens r) <= attempts r + budget)%nat.
Proof.
  revert r. induction budget as [|b IH]; intros r; simpl; [lia|].
  destruct (opens (S (attempts r))); simpl; [lia|].
  etransitivity; [apply IH|]. simpl. lia.
Qed.

Lemma restartLoop_all_fail (budget : nat) (opens : nat -> bool) (r : Receiver) :
  (forall n : nat, (attempts r < n <= attempts r + budget)%nat -> opens n = false) ->
  restartLoop budget opens r = mkReceiver DESTROYED (attempts r + budget).
Proof.
  revert r. induction budget as [|b IH]; intros r Hf; simpl.
  - f_equal. lia.
  - rewrite (Hf (S (attempts r))) by lia. simpl.
    rewrite IH; simpl; [f_equal; lia|].
    intros n Hn. apply Hf. lia.
Qed.

(** A restart that ends in [RUNNING] ends at its first attempt that
    reopens the sockets. *)
Lemma restartLoop_running (budget : nat) (opens : nat -> bool) (r : Receiver) :
  state (restartLoop budget opens r) = RUNNING ->
  opens (attempts (restartLoop budget opens r)) = true.
Proof.
  revert r. induction budget as [|b IH]; intros r; simpl; [discriminate|].
  destruct (opens (S (attempts r))) eqn:E; simpl; [intros _; exact E|].
  apply IH.
Qed.

Lemma step_destroyed (r : Receiver) (e : Event) :
  state r = DESTROYED -> step r e = r.
Proof. intros H. unfold step. rewrite H. reflexivity. Qed.

Lemma run_destroyed (r : Receiver) (events : list Event) :
  state r = DESTROYED -> run r events = r.
Proof.
  intros H. unfold run. induction events as [|e events IH]; simpl; [reflexivity|].
  rewrite step_destroyed by assumption. exact IH.
Qed.

(** C7. A receiver that catches an error in [RUNNING] makes at most 10
    restart attempts in a row; when the first 10 attempts all fail it has
    made exactly 10 and is [DESTROYED]; and [DESTROYED] is absorbing:
    whatever happens afterwards, the receiver stays [DESTROYED], is never
    [RUNNING] again and makes no further restart attempt. *)
Theorem restart_bounded (r : Receiver) (opens : nat -> bool) :
  state r = RUNNING ->
  (attempts (step r (Failure opens)) <= 10)%nat /\
  ((forall n : nat, (1 <= n <= 10)%nat -> opens n = false) ->
   step r (Failure opens) = mkReceiver DESTROYED 10 /\
   forall events : list Event,
     run (step r (Failure opens)) events = mkReceiver DESTROYED 10).
Proof.
  intros Hr. unfold step, safeRestart. rewrite Hr. split.
  - apply (restartLoop_attempts 10 opens (mkReceiver RUNNING 0)).
  - intros Hf.
    assert (E : restartLoop MAX_RESTART_ATTEMPTS opens (mkReceiver RUNNING 0)
                = mkReceiver DESTROYED 10).
    { apply (restartLoop_all_fail 10 opens (mkReceiver RUNNING 0)).
      intros n Hn. apply Hf. simpl in Hn. lia. }
    split; [exact E|]. intros events. rewrite E. now apply run_destroyed.
Qed.

Definition neverOpens (n : nat) : bool := false.

Lemma restart_bounded_witness :
  run (mkReceiver RUNNING 0) [Failure neverOpens; Start true; Failure neverOpens]
  = mkReceiver DESTROYED 10.
Proof.
  apply (proj2 (proj2 (restart_bounded (mkReceiver RUNNING 0) neverOpens eq_refl)
                  (fun n _ => eq_refl)) [Start true; Failure neverOpens]).
Defined.

(** A receiver that was never started and is stopped ends in [STOPPED]. *)
Example stop_before_start : run new [Stop] = mkReceiver STOPPED 0.
Proof. reflexivity. Qed.

(** A restart that succeeds at the third attempt. *)
Example restart_third_attempt :
  step (mkReceiver RUNNING 0) (Failure (fun n => (3 <=? n)%nat)) = mkReceiver RUNNING 3.
Proof. reflexivity. Qed.

End DataReceiver.

(** ** Declaration resolver: pull consumers *)

Module ConfigUtil.
Import Normalize.

Definition DEFAULT_NAMESPACE : string := "f5telemetry_default".

Definition GROUP_CLASS : string := "Telemetry_Pull_Consumer_System_Poller_Group".

(** An element of a system's [systemPoller]: the name of a declared poller
    or an inline, anonymous poller. *)
Inductive PollerRef : Type :=
| ByName (name : string)
| Inline (interval : nat).

(** The declared objects the resolution of pull consumers reads. *)
Record SystemPollerDecl : Type := mkPollerDecl {
  pollerName : string;
  pollerInterval : nat
}.

Record SystemDecl : Type := mkSystemDecl {
  systemName : string;
  systemHost : string;
  systemPoller : list PollerRef
}.

Record PullConsumerDecl : Type := mkPullConsumerDecl {
  consumerName : string;
  consumerType : string;
  consumerPollers : list string
}.

(** The objects of one namespace (of the default one for the top level of
    the declaration), in declaration order. *)
Record Scope : Type := mkScope {
  namespace : string;
  pollers : list SystemPollerDecl;
  systems : list SystemDecl;
  pullConsumers : list PullConsumerDecl
}.

(** The components the resolution produces. *)
Inductive Component : Type :=
| SystemPoller (id name ns system host : string) (interval : nat)
| PullConsumer (id name ns type : string)
| PullConsumerGroup (id name ns pullConsumer : string) (systemPollers : list string).

Definition componentId (c : Component) : string :=
  match c with
  | SystemPoller id _ _ _ _ _ => id
  | PullConsumer id _ _ _ => id
  | PullConsumerGroup id _ _ _ _ => id
  end.

(** ["<ns>::<name>"] and ["<ns>::<system>::<poller>"] *)
Definition id2 (ns name : string) : string :=
  String.append ns (String.append "::" name).

Definition id3 (ns system poller : string) : string :=
  id2 ns (id2 system poller).

Definition findPoller (name : string) (decls : list SystemPollerDecl)
  : option SystemPollerDecl :=
  List.find (fun d => String.eqb (pollerName d) name) decls.

(** Modelled from the spec: step 5 of the resolver (the file
    [src/lib/utils/config.js] is missing).  A system unfolds into one
    system-scoped poller component per element of its [systemPoller], with
    id ["<ns>::<systemName>::<pollerName>"]; an inline poller is named
    [SystemPoller_<n>] by its position among the inline pollers of the
    system.  A name that no declared poller has yields no component. *)
Fixpoint unfoldPollers (ns system host : string) (decls : list SystemPollerDecl)
    (n : nat) (refs : list PollerRef) : list Component :=
  match refs with
  | [] => []
  | ByName p :: rest =>
      match findPoller p decls with
      | Some d => [SystemPoller (id3 ns system p) p ns system host (pollerInterval d)]
      | None => []
      end ++ unfoldPollers ns system host decls n rest
  | Inline interval :: rest =>
      let p := String.append "SystemPoller_" (decimal (Z.of_nat n)) in
      SystemPoller (id3 ns system p) p ns system host interval
      :: unfoldPollers ns system host decls (S n) rest
  end.

Definition unfoldSystem (ns : string) (decls : list SystemPollerDecl) (s : SystemDecl)
  : list Component :=
  unfoldPollers ns (systemName s) (systemHost s) decls 1 (systemPoller s).

(** Whether some system of the scope references the poller by name. *)
Definition enclosed (systems : list SystemDecl) (p : string) : bool :=
  existsb (fun s => existsb (fun r => match r with
                                      | ByName q => String.eqb q p
                                      | Inline _ => false
                                      end) (systemPoller s)) systems.

(** The list without the later copies of its elements. *)
Definition dedupe (l : list string) : list string :=
  fold_left (fun acc x => if bool_decide (x ∈ acc) then acc else acc ++ [x]) l [].

(** Modelled from the spec: the second half of step 4.  For a poller name
    that a pull consumer references and no system encloses, a system is
    synthesized whose name is the poller name and whose host is
    [localhost]. *)
Definition synthesizedSystems (scope : Scope) : list SystemDecl :=
  map (fun p => mkSystemDecl p "localhost" [ByName p])
      (dedupe (filter (fun p => enclosed (systems scope) p = false)
                      (flat_map consumerPollers (pullConsumers scope)))).

(** Modelled from the spec: the system-scoped poller components of a
    scope, those of the declared systems in declaration order, then those
    of the synthesized ones. *)
Definition pollerComponents (scope : Scope) : list Component :=
  flat_map (unfoldSystem (namespace scope) (pollers scope))
           (systems scope ++ synthesizedSystems scope).

Definition pollerNamed (names : list string) (c : Component) : bool :=
  match c with
  | SystemPoller _ name _ _ _ _ => bool_decide (name ∈ names)
  | _ => false
  end.

(** Modelled from the spec: the first half of step 4.  A pull consumer
    gets one group component, with id
    ["<ns>::Telemetry_Pull_Consumer_System_Poller_Group_<consumerName>"],
    carrying the ordered, de-duplicated list of the ids of the poller
    components it references. *)
Definition pollerGroup (scope : Scope) (c : PullConsumerDecl) : Component :=
  let name := String.append GROUP_CLASS (String.append "_" (consumerName c)) in
  PullConsumerGroup (id2 (namespace scope) name) name (namespace scope)
    (id2 (namespace scope) (consumerName c))
    (dedupe (map componentId
                 (filter (fun p => pollerNamed (consumerPollers c) p = true)
                         (pollerComponents scope)))).

Definition pullConsumerComponent (scope : Scope) (c : PullConsumerDecl) : Component :=
  PullConsumer (id2 (namespace scope) (consumerName c)) (consumerName c)
               (namespace scope) (consumerType c).

(** Modelled from the spec: the components of a scope, as far as pull
    consumers go: each pull consumer with its group, then the pollers. *)
Definition normalizeScope (scope : Scope) : list Component :=
  flat_map (fun c => [pullConsumerComponent scope c; pollerGroup scope c])
           (pullConsumers scope)
  ++ pollerComponents scope.

(** Modelled from the spec: step 6 for pull groups, producer the group and
    consumer the pull consumer. *)
Definition groupMappings (scope : Scope) : list (string * list string) :=
  map (fun c => (componentId (pollerGroup scope c),
                 [componentId (pullConsumerComponent scope c)]))
      (pullConsumers scope).

Definition isGroup (c : Component) : bool :=
  match c with
  | PullConsumerGroup _ _ _ _ _ => true
  | _ => false
  end.

(** The declaration of the fifth scenario of the specification. *)
Definition scenario : Scope :=
  mkScope DEFAULT_NAMESPACE
    [mkPollerDecl "Pull_Poller_1" 0; mkPollerDecl "Pull_Poller_2" 0;
     mkPollerDecl "Pull_Poller_3" 0]
    [mkSystemDecl "My_System" "host1" [ByName "Pull_Poller_1"];
     mkSystemDecl "My_System_2" "host1" [ByName "Pull_Poller_2"];
     mkSystemDecl "My_System_3" "host1" [ByName "Pull_Poller_1"; ByName "Pull_Poller_2"]]
    [mkPullConsumerDecl "My_Pull_Consumer" "default"
       ["Pull_Poller_1"; "Pull_Poller_2"; "Pull_Poller_3"]].

(** The default scope of the declaration of the unit test
    'should normalize declaration with Pull Consumers', which has two more
    pollers, an inline poller and a second pull consumer. *)
Definition testScope : Scope :=
  mkScope DEFAULT_NAMESPACE
    [mkPollerDecl "Pull_Poller_1" 0; mkPollerDecl "Pull_Poller_2" 0;
     mkPollerDecl "Pull_Poller_3" 0; mkPollerDecl "Pull_Poller_4" 0;
     mkPollerDecl "Regular_Poller_1" 0]
    [mkSystemDecl "My_System" "host1" [ByName "Pull_Poller_1"];
     mkSystemDecl "My_System_2" "host1" [ByName "Pull_Poller_2"];
     mkSystemDecl "My_System_3" "host1"
       [ByName "Pull_Poller_1"; ByName "Pull_Poller_2"; Inline 90; ByName "Regular_Poller_1"]]
    [mkPullConsumerDecl "My_Pull_Consumer" "default"
       ["Pull_Poller_1"; "Pull_Poller_2"; "Pull_Poller_3"];
     mkPullConsumerDecl "My_Disabled_Pull_Consumer" "Prometheus"
       ["Pull_Poller_1"; "Pull_Poller_2"; "Pull_Poller_3"]].

Definition expectedPollers : list string :=
  ["f5telemetry_default::My_System::Pull_Poller_1";
   "f5telemetry_default::My_System_2::Pull_Poller_2";
   "f5telemetry_default::My_System_3::Pull_Poller_1";
   "f5telemetry_default::My_System_3::Pull_Poller_2";
   "f5telemetry_default::Pull_Poller_3::Pull_Poller_3"].

(** *** Facts *)

(** C1. For the declaration of the scenario the resolver produces one
    pull-consumer group, whose ordered [systemPollers] is exactly the list
    of the five expected ids, and for the bare reference [Pull_Poller_3] a
    system named [Pull_Poller_3] with host [localhost], carrying the
    poller. *)
Theorem pull_consumer_resolution :
  filter (fun c => isGroup c = true) (normalizeScope scenario)
  = [PullConsumerGroup
       "f5telemetry_default::Telemetry_Pull_Consumer_System_Poller_Group_My_Pull_Consumer"
       "Telemetry_Pull_Consumer_System_Poller_Group_My_Pull_Consumer"
       "f5telemetry_default" "f5telemetry_default::My_Pull_Consumer" expectedPollers] /\
  synthesizedSystems scenario = [mkSystemDecl "Pull_Poller_3" "localhost" [ByName "Pull_Poller_3"]] /\
  SystemPoller "f5telemetry_default::Pull_Poller_3::Pull_Poller_3" "Pull_Poller_3"
    "f5telemetry_default" "Pull_Poller_3" "localhost" 0 ∈ normalizeScope scenario.
Proof.
  split; [vm_compute; reflexivity|]. split; [vm_compute; reflexivity|].
  apply list_elem_of_In. vm_compute. tauto.
Qed.

(** The same list comes out for the fuller declaration of the unit test,
    for both of its pull consumers. *)
Example pull_consumer_resolution_test :
  map (fun c => match c with
                | PullConsumerGroup _ _ _ _ l => l
                | _ => []
                end)
      (filter (fun c => isGroup c = true) (normalizeScope testScope))
  = [expectedPollers; expectedPollers] /\
  groupMappings testScope
  = [("f5telemetry_default::Telemetry_Pull_Consumer_System_Poller_Group_My_Pull_Consumer",
      ["f5telemetry_default::My_Pull_Consumer"]);
     ("f5telemetry_default::Telemetry_Pull_Consumer_System_Poller_Group_My_Disabled_Pull_Consumer",
      ["f5telemetry_default::My_Disabled_Pull_Consumer"])].
Proof. split; vm_compute; reflexivity. Qed.

Lemma dedupe_NoDup_acc (l acc : list string) :
  NoDup acc ->
  NoDup (fold_left (fun acc x => if bool_decide (x ∈ acc) then acc else acc ++ [x]) l acc).
Proof.
  revert acc. induction l as [|x l IH]; intros acc Hacc; simpl; [exact Hacc|].
  apply IH. case_bool_decide as Hx; [exact Hacc|].
  apply NoDup_app. split; [exact Hacc|]. split.
  - intros y Hy Hy'. apply list_elem_of_singleton in Hy'. congruence.
  - apply NoDup_singleton.
Qed.

(** The list of a group never holds an id twice. *)
Lemma pollerGroup_NoDup (scope : Scope) (c : PullConsumerDecl) :
  match pollerGroup scope c with
  | PullConsumerGroup _ _ _ _ l => NoDup l
  | _ => False
  end.
Proof. simpl. apply dedupe_NoDup_acc. constructor. Qed.

End ConfigUtil.

(** ** Logger: masking of secrets *)

Module Logger.

Definition MASK : string := "*********".

(** The keys whose values are secrets. *)
Definition isSecret (key : string) : bool :=
  String.eqb key "passphrase" || String.eqb key "cipherText".

(** A JSON document as the logger meets it.  A string is either plain text
    or the text of a JSON document of its own (an embedded JSON string). *)
Inductive Doc : Type :=
| DNull
| DBool (b : bool)
| DNum (z : Z)
| DText (s : string)
| DJson (embedded : Doc)
| DArr (items : list Doc)
| DObj (members : list (string * Doc)).

Definition isObject (d : Doc) : bool :=
  match d with
  | DObj _ => true
  | _ => false
  end.

(** Modelled from the spec: the masking of a message that is a string
    holding JSON text (the logger, [src/lib/logger.js], and its masking
    helpers are missing).  The mask replaces the value of every secret-keyed
    field, at any depth and inside embedded JSON strings, with the one
    exception the logger's unit test 'should mask secrets in JSON string'
    shows: a secret-keyed field whose value is an object keeps the object,
    with the fields inside it masked in the same way. *)
Fixpoint maskText (d : Doc) : Doc :=
  match d with
  | DJson embedded => DJson (maskText embedded)
  | DArr items => DArr (map maskText items)
  | DObj members =>
      DObj (map (fun kv => (kv.1, if isSecret kv.1
                                  then match kv.2 with
                                       | DObj _ => maskText kv.2
                                       | _ => DText MASK
                                       end
                                  else maskText kv.2)) members)
  | other => other
  end.

(** Modelled from the spec: the masking of a message that is an object.
    The mask replaces the value of every secret-keyed field, at any depth,
    whatever the value is (unit test 'should mask secrets in JSON data');
    a string that holds JSON text is masked as a string message is. *)
Fixpoint maskData (d : Doc) : Doc :=
  match d with
  | DJson embedded => DJson (maskText embedded)
  | DArr items => DArr (map maskData items)
  | DObj members =>
      DObj (map (fun kv => (kv.1, if isSecret kv.1 then DText MASK else maskData kv.2))
                members)
  | other => other
  end.

(** Modelled from the spec: a payload handed to the logger, a string
    (holding the JSON text of a document) or an object. *)
Inductive Payload : Type :=
| Message (text : Doc)
| Object (data : Doc).

Definition document (p : Payload) : Doc :=
  match p with
  | Message text => text
  | Object data => data
  end.

(** Modelled from the spec: the document in the emitted log line. *)
Definition emitted (p : Payload) : Doc :=
  match p with
  | Message text => maskText text
  | Object data => maskData data
  end.

(** Every secret-keyed field, at any depth and inside embedded JSON
    strings, has the mask as its value. *)
Fixpoint allMasked (d : Doc) : bool :=
  match d with
  | DJson embedded => allMasked embedded
  | DArr items => forallb allMasked items
  | DObj members =>
      forallb (fun kv => if isSecret kv.1
                         then match kv.2 with
                              | DText s => String.eqb s MASK
                              | _ => false
                              end
                         else allMasked kv.2) members
  | _ => true
  end.

(** Every secret-keyed field, at any depth and inside embedded JSON
    strings, has the mask as its value, or an object of which the same
    holds. *)
Fixpoint textMasked (d : Doc) : bool :=
  match d with
  | DJson embedded => textMasked embedded
  | DArr items => forallb textMasked items
  | DObj members =>
      forallb (fun kv => if isSecret kv.1
                         then match kv.2 with
                              | DText s => String.eqb s MASK
                              | DObj _ => textMasked kv.2
                              | _ => false
                              end
                         else textMasked kv.2) members
  | _ => true
  end.

(** As [allMasked], but inside embedded JSON strings as [textMasked]:
    what holds of an object payload. *)
Fixpoint dataMasked (d : Doc) : bool :=
  match d with
  | DJson embedded => textMasked embedded
  | DArr items => forallb dataMasked items
  | DObj members =>
      forallb (fun kv => if isSecret kv.1
                         then match kv.2 with
                              | DText s => String.eqb s MASK
                              | _ => false
                              end
                         else dataMasked kv.2) members
  | _ => true
  end.

(** The masking a document gets: that of a string message, or that of
    an object. *)
Definition mask (text : bool) (d : Doc) : Doc :=
  if text then maskText d else maskData d.

Definition isMessage (p : Payload) : bool :=
  match p with
  | Message _ => true
  | Object _ => false
  end.

(** The value of the first member named [key]. *)
Fixpoint member (key : string) (members : list (string * Doc)) : option Doc :=
  match members with
  | [] => None
  | kv :: rest => if String.eqb kv.1 key then Some kv.2 else member key rest
  end.

(** A step into a document: to the member of an object, to the item of an
    array, or into the document an embedded JSON string holds. *)
Inductive Step : Type :=
| Key (key : string)
| Index (i : nat)
| Embedded.

(** The value found by following the steps of [path]. *)
Fixpoint valueAt (path : list Step) (d : Doc) : option Doc :=
  match path with
  | [] => Some d
  | Key key :: rest =>
      match d with
      | DObj members => member key members ≫= valueAt rest
      | _ => None
      end
  | Index i :: rest =>
      match d with
      | DArr items => nth_error items i ≫= valueAt rest
      | _ => None
      end
  | Embedded :: rest =>
      match d with
      | DJson embedded => valueAt rest embedded
      | _ => None
      end
  end.

(** Whether the value at the end of [path] is masked as a string message
    is: it is in a string message, or inside an embedded JSON string. *)
Fixpoint textAt (text : bool) (path : list Step) : bool :=
  match path with
  | [] => text
  | Embedded :: rest => textAt true rest
  | _ :: rest => textAt text rest
  end.

Definition nextIsKey (path : list Step) : bool :=
  match path with
  | [] | Key _ :: _ => true
  | _ => false
  end.

(** The steps of [path], which lead to an object whose fields are looked
    at, pass under no secret key; in a string message they may, as long as
    the step after the secret key is one into an object. *)
Fixpoint reachable (text : bool) (path : list Step) : bool :=
  match path with
  | [] => true
  | Key key :: rest =>
      (negb (isSecret key) || (text && nextIsKey rest)) && reachable text rest
  | Index _ :: rest => reachable text rest
  | Embedded :: rest => reachable true rest
  end.

(** What becomes of the value [v] of a field named [key] in the emitted
    line. *)
Definition maskedField (text : bool) (key : string) (v : Doc) : Doc :=
  if isSecret key
  then if text && isObject v then maskText v else DText MASK
  else mask text v.

(** The third secret of the logger's unit tests. *)
Definition secret3 : Doc :=
  DObj [("someSecretData_3",
         DObj [("nestedData",
                DObj [("passphrase", DObj [("cipherText", DText "test_passphrase_3")])])])].

(** The declaration of the logger's unit tests. *)
Definition testDecl : Doc :=
  DObj [("someSecretData", DObj [("cipherText", DText "test_passphrase_1")]);
        ("someSecretData_2", DObj [("passphrase", DText "test_passphrase_2")]);
        ("someSecretData_3",
         DObj [("nestedData",
                DObj [("passphrase", DObj [("cipherText", DText "test_passphrase_3")])])]);
        ("someSecretData_4", DObj [("nestedData", DObj [("passphrase", DText "test_passphrase_4")])]);
        ("jsonData",
         DJson (DObj [("someSecretData", DObj [("cipherText", DText "test_passphrase_1")]);
                      ("someSecretData_2", DObj [("passphrase", DText "test_passphrase_2")])]))].

(** *** Facts *)

(** The induction principle of documents, with the hypotheses for the
    items of an array and the members of an object. *)
Lemma Doc_induction (P : Doc -> Prop) :
  P DNull -> (forall b, P (DBool b)) -> (forall z, P (DNum z)) -> (forall s, P (DText s)) ->
  (forall e, P e -> P (DJson e)) ->
  (forall items, Forall P items -> P (DArr items)) ->
  (forall members, Forall (fun kv => P kv.2) members -> P (DObj members)) ->
  forall d, P d.
Proof.
  intros Hnull Hbool Hnum Htext Hjson Harr Hobj.
  fix IH 1. intros [| | | |e|items|members].
  - exact Hnull.
  - apply Hbool.
  - apply Hnum.
  - apply Htext.
  - apply Hjson, IH.
  - apply Harr. induction items as [|x items IHl]; constructor; [apply IH | exact IHl].
  - apply Hobj. induction members as [|[k v] members IHl]; constructor;
      [apply IH | exact IHl].
Qed.

Lemma maskText_textMasked (d : Doc) : textMasked (maskText d) = true.
Proof.
  induction d as [| | | |e IH|items IH|members IH] using Doc_induction; simpl; auto.
  - rewrite forallb_forall. intros x Hx. apply in_map_iff in Hx as (y & <- & Hy).
    rewrite Forall_forall in IH. apply IH. now apply list_elem_of_In.
  - rewrite forallb_forall. intros x Hx. apply in_map_iff in Hx as ([k v] & <- & Hy).
    rewrite Forall_forall in IH. apply list_elem_of_In, IH in Hy. simpl in *.
    destruct (isSecret k); simpl; [|exact Hy].
    destruct v; simpl in *; auto.
Qed.

Lemma maskData_dataMasked (d : Doc) : dataMasked (maskData d) = true.
Proof.
  induction d as [| | | |e IH|items IH|members IH] using Doc_induction; simpl; auto.
  - apply maskText_textMasked.
  - rewrite forallb_forall. intros x Hx. apply in_map_iff in Hx as (y & <- & Hy).
    rewrite Forall_forall in IH. apply IH. now apply list_elem_of_In.
  - rewrite forallb_forall. intros x Hx. apply in_map_iff in Hx as ([k v] & <- & Hy).
    rewrite Forall_forall in IH. apply list_elem_of_In, IH in Hy. simpl in *.
    destruct (isSecret k); simpl; [reflexivity | exact Hy].
Qed.

Lemma dataMasked_textMasked (d : Doc) :
  dataMasked d = true -> textMasked d = true.
Proof.
  induction d as [| | | |e IH|items IH|members IH] using Doc_induction; simpl; auto.
  - rewrite !forallb_forall. intros H x Hx. rewrite Forall_forall in IH.
    apply IH; [now apply list_elem_of_In | now apply H].
  - rewrite !forallb_forall. intros H [k v] Hx. rewrite Forall_forall in IH.
    specialize (H _ Hx). specialize (IH _ (proj2 (list_elem_of_In _ _) Hx)). simpl in *.
    destruct (isSecret k); [|now apply IH].
    destruct v; simpl in *; congruence.
Qed.

(** Masking a string message that is masked already changes nothing. *)
Lemma maskText_fixed (d : Doc) : textMasked d = true -> maskText d = d.
Proof.
  induction d as [| | | |e IH|items IH|members IH] using Doc_induction; simpl; auto.
  - intros H. now rewrite IH.
  - rewrite forallb_forall. intros H. f_equal.
    rewrite Forall_forall in IH. rewrite <- (map_id items) at 2.
    apply map_ext_in. intros x Hx. apply IH; [now apply list_elem_of_In | now apply H].
  - rewrite forallb_forall. intros H. f_equal.
    rewrite Forall_forall in IH. rewrite <- (map_id members) at 2.
    apply map_ext_in. intros [k v] Hx.
    specialize (H _ Hx). specialize (IH _ (proj2 (list_elem_of_In _ _) Hx)). simpl in *.
    destruct (isSecret k); simpl; [|now rewrite IH].
    destruct v; simpl in *; try discriminate; try (now rewrite IH).
    apply String.eqb_eq in H. now subst.
Qed.

Lemma emitted_textMasked (p : Payload) : textMasked (emitted p) = true.
Proof.
  destruct p as [text|data]; simpl.
  - apply maskText_textMasked.
  - apply dataMasked_textMasked, maskData_dataMasked.
Qed.

Lemma emitted_mask (p : Payload) : emitted p = mask (isMessage p) (document p).
Proof. now destruct p. Qed.

Lemma member_map (f : string -> Doc -> Doc) (key : string) (members : list (string * Doc)) :
  member key (map (fun kv => (kv.1, f kv.1 kv.2)) members) = f key <$> member key members.
Proof.
  induction members as [|[k v] members IH]; simpl; [reflexivity|].
  destruct (String.eqb_spec k key) as [->|Hne]; [reflexivity | exact IH].
Qed.

Lemma mask_members (text : bool) (key : string) (members : list (string * Doc)) :
  exists members',
    mask text (DObj members) = DObj members' /\
    member key members' = maskedField text key <$> member key members.
Proof.
  destruct text; simpl; eexists; (split; [reflexivity|]).
  - rewrite (member_map (fun k v => if isSecret k
                                    then match v with
                                         | DObj _ => maskText v
                                         | _ => DText MASK
                                         end
                                    else maskText v)).
    destruct (member key members) as [v|]; simpl; [|reflexivity].
    unfold maskedField. destruct (isSecret key); simpl; [|reflexivity].
    now destruct v.
  - rewrite (member_map (fun k v => if isSecret k then DText MASK else maskData v)).
    destruct (member key members) as [v|]; simpl; [|reflexivity].
    unfold maskedField. now destruct (isSecret key).
Qed.

Lemma mask_items (text : bool) (items : list Doc) :
  mask text (DArr items) = DArr (map (mask text) items).
Proof. now destruct text. Qed.

Lemma mask_embedded (text : bool) (embedded : Doc) :
  mask text (DJson embedded) = DJson (mask true embedded).
Proof. now destruct text. Qed.

Lemma valueAt_key (key : string) (rest : list Step) (d : Doc) :
  isObject d = false -> valueAt (Key key :: rest) d = None.
Proof. now destruct d. Qed.

(** The fields of the emitted document are those of the document that was
    logged, each one masked. *)
Lemma mask_field (path : list Step) (key : string) :
  forall (text : bool) (d : Doc),
    reachable text path = true ->
    valueAt (path ++ [Key key]) (mask text d)
    = maskedField (textAt text path) key <$> valueAt (path ++ [Key key]) d.
Proof.
  induction path as [|step path IH]; intros text d Hpath.
  - change ([] ++ [Key key]) with [Key key].
    destruct d as [| | | | | |members]; try (now destruct text).
    destruct (mask_members text key members) as (members' & -> & Hm).
    cbn [valueAt textAt]. rewrite Hm.
    now destruct (member key members).
  - change ((step :: path) ++ [Key key]) with (step :: (path ++ [Key key])).
    destruct step as [k|i|].
    + cbn [reachable] in Hpath. apply andb_true_iff in Hpath as [Hk Hpath].
      destruct d as [| | | | | |members]; try (now destruct text).
      destruct (mask_members text k members) as (members' & -> & Hm).
      cbn [valueAt textAt]. rewrite Hm.
      destruct (member k members) as [inner|]; [|reflexivity].
      cbn [fmap option_fmap option_map mbind option_bind].
      unfold maskedField at 1.
      destruct (isSecret k); simpl in Hk.
      * apply andb_true_iff in Hk as [-> Hnext]. simpl.
        destruct (isObject inner) eqn:Hobj; [now apply (IH true)|].
        assert (Hrest : exists k' rest, path ++ [Key key] = Key k' :: rest).
        { destruct path as [|[k'| |] path]; try discriminate Hnext; simpl; eauto. }
        destruct Hrest as (k' & rest & ->).
        now rewrite (valueAt_key k' rest inner Hobj).
      * now apply IH.
    + cbn [reachable] in Hpath.
      destruct d as [| | | | |items|]; try (now destruct text).
      rewrite mask_items. cbn [valueAt textAt]. rewrite nth_error_map.
      destruct (nth_error items i) as [item|]; [|reflexivity].
      now apply IH.
    + cbn [reachable] in Hpath.
      destruct d as [| | | |embedded| |]; try (now destruct text).
      rewrite mask_embedded. cbn [valueAt textAt].
      now apply IH.
Qed.

(** C6, as stated, fails: logged as a string, the third secret of the
    unit tests keeps an object under [passphrase], which is not the mask
    (the secret inside the object is masked). *)
Lemma masking_counterexample :
  emitted (Message secret3)
  = DObj [("someSecretData_3",
           DObj [("nestedData", DObj [("passphrase", DObj [("cipherText", DText MASK)])])])] /\
  allMasked (emitted (Message secret3)) = false.
Proof. split; vm_compute; reflexivity. Qed.

(** C6, amended.  In the line emitted for any payload every field whose
    key is [passphrase] or [cipherText], at any depth and inside embedded
    JSON strings, has the mask as its value, except that in a string message
    (and in an embedded JSON string) such a field whose value is an object
    keeps the object, of whose fields the same holds.  Field by field, along
    any path of object members, array items and embedded JSON strings that
    passes under no secret key (or, in a string message, only under secret
    keys that hold objects): the emitted line has a field exactly where the
    logged document has it; a field with a secret key comes out with the
    mask, whatever its value in an object payload, and unless its value is
    an object in a string message, where the object is kept and masked
    inside; any other field comes out with its own value masked.  Logging
    the emitted line again leaves it unchanged. *)
Theorem masking_spec (p : Payload) :
  textMasked (emitted p) = true /\
  (forall data : Doc, p = Object data -> dataMasked (emitted p) = true) /\
  (forall (path : list Step) (key : string),
      reachable (isMessage p) path = true ->
      valueAt (path ++ [Key key]) (emitted p)
      = maskedField (textAt (isMessage p) path) key
          <$> valueAt (path ++ [Key key]) (document p)) /\
  emitted (Message (emitted p)) = emitted p.
Proof.
  split; [apply emitted_textMasked|]. split; [|split].
  - intros data ->. apply maskData_dataMasked.
  - intros path key Hpath. rewrite emitted_mask. now apply mask_field.
  - simpl. apply maskText_fixed, emitted_textMasked.
Qed.

Lemma masking_spec_witness :
  dataMasked (emitted (Object testDecl)) = true /\
  valueAt [Key "someSecretData_3"; Key "nestedData"; Key "passphrase"]
    (emitted (Message testDecl))
  = Some (DObj [("cipherText", DText MASK)]) /\
  valueAt [Key "someSecretData_3"; Key "nestedData"; Key "passphrase"; Key "cipherText"]
    (emitted (Message testDecl))
  = Some (DText MASK) /\
  valueAt [Key "someSecretData_3"; Key "nestedData"; Key "passphrase"]
    (emitted (Object testDecl))
  = Some (DText MASK) /\
  valueAt [Key "jsonData"; Embedded; Key "someSecretData_2"; Key "passphrase"]
    (emitted (Object testDecl))
  = Some (DText MASK).
Proof.
  split; [|split; [|split; [|split]]].
  - apply (proj1 (proj2 (masking_spec (Object testDecl))) testDecl eq_refl).
  - apply (proj1 (proj2 (proj2 (masking_spec (Message testDecl))))
             [Key "someSecretData_3"; Key "nestedData"] "passphrase" eq_refl).
  - apply (proj1 (proj2 (proj2 (masking_spec (Message testDecl))))
             [Key "someSecretData_3"; Key "nestedData"; Key "passphrase"] "cipherText"
             eq_refl).
  - apply (proj1 (proj2 (proj2 (masking_spec (Object testDecl))))
             [Key "someSecretData_3"; Key "nestedData"] "passphrase" eq_refl).
  - apply (proj1 (proj2 (proj2 (masking_spec (Object testDecl))))
             [Key "jsonData"; Embedded; Key "someSecretData_2"] "passphrase" eq_refl).
Defined.

(** The two unit tests of the logger: the declaration logged as a string
    and as an object. *)
Example masking_test_string :
  emitted (Message testDecl)
  = DObj [("someSecretData", DObj [("cipherText", DText MASK)]);
          ("someSecretData_2", DObj [("passphrase", DText MASK)]);
          ("someSecretData_3",
           DObj [("nestedData", DObj [("passphrase", DObj [("cipherText", DText MASK)])])]);
          ("someSecretData_4", DObj [("nestedData", DObj [("passphrase", DText MASK)])]);
          ("jsonData",
           DJson (DObj [("someSecretData", DObj [("cipherText", DText MASK)]);
                        ("someSecretData_2", DObj [("passphrase", DText MASK)])]))].
Proof. vm_compute. reflexivity. Qed.

Example masking_test_object :
  emitted (Object testDecl)
  = DObj [("someSecretData", DObj [("cipherText", DText MASK)]);
          ("someSecretData_2", DObj [("passphrase", DText MASK)]);
          ("someSecretData_3", DObj [("nestedData", DObj [("passphrase", DText MASK)])]);
          ("someSecretData_4", DObj [("nestedData", DObj [("passphrase", DText MASK)])]);
          ("jsonData",
           DJson (DObj [("someSecretData", DObj [("cipherText", DText MASK)]);
                        ("someSecretData_2", DObj [("passphrase", DText MASK)])]))].
Proof. vm_compute. reflexivity. Qed.

(** A secret-keyed field that is neither a string nor an object is masked
    in a string message as well. *)
Example masking_array :
  emitted (Message (DObj [("passphrase", DArr [DText "hunter2"]); ("port", DNum 443)]))
  = DObj [("passphrase", DText MASK); ("port", DNum 443)].
Proof. vm_compute. reflexivity. Qed.

End Logger.

(** ** Normalizers on JSON data: key filtering and CSV *)

Module NormalizeData.
Import JsString Normalize Json.

(** [String.prototype.includes]: [needle] occurs in [s]. *)
Fixpoint includes (needle s : string) : bool :=
  String.prefix needle s ||
  match s with
  | EmptyString => false
  | String _ s' => includes needle s'
  end.

(** The options of [_filterDataByKeys]; [None] is an absent list. *)
Record FilterOptions : Type := mkFilterOptions {
  include : option (list string);
  exclude : option (list string)
}.

(** The value of [deleteKey] once the callback of [_filterDataByKeys] has
    looked at key [k]: with [include] the key goes unless it contains one
    of the listed strings, with [exclude] it goes when it is one of the
    listed strings. *)
Definition deleteKey (options : FilterOptions) (k : string) : bool :=
  match include options, exclude options with
  | Some keys, _ => negb (existsb (fun i => includes i k) keys)
  | None, Some keys => existsb (fun i => String.eqb i k) keys
  | None, None => false
  end.

(** [_filterDataByKeys(data, options)] past the check of the options: a
    non-array object loses the keys to delete and has its other values
    filtered in turn; anything else, arrays included, is returned as it
    is. *)
Fixpoint filterData (options : FilterOptions) (data : Json.t) : Json.t :=
  match data with
  | JObj members =>
      JObj (flat_map (fun kv => if deleteKey options kv.1 then []
                                else [(kv.1, filterData options kv.2)]) members)
  | other => other
  end.

Inductive FilterError : Type :=
| IncludeAndExclude.

(** [_filterDataByKeys(data, options)]; [inl] is the error thrown. *)
Definition _filterDataByKeys (data : Json.t) (options : option FilterOptions)
  : FilterError + Json.t :=
  let options := default (mkFilterOptions None None) options in
  match include options, exclude options with
  | Some _, Some _ => inl IncludeAndExclude
  | _, _ => inr (filterData options data)
  end.

(** The keys of an object and of the objects under its keys, at any depth;
    what is inside an array is not looked at. *)
Fixpoint objectKeys (data : Json.t) : list string :=
  match data with
  | JObj members => flat_map (fun kv => kv.1 :: objectKeys kv.2) members
  | _ => []
  end.

(** *** CSV *)

(** [headers[i]] as a property name. *)
Definition headerAt (headers : list string) (i : nat) : string :=
  default "undefined" (headers !! i).

(** [iRet[name] = cell] on an object made by [{}], for a string [cell]:
    the name [__proto__] is the accessor the object inherits, whose setter
    ignores a string, so that nothing is stored; any other name becomes, or
    stays, a property of the object itself. *)
Definition assignCell (iRet : Item) (name cell : string) : Item :=
  if String.eqb name "__proto__" then iRet else <[name := VStr cell]> iRet.

(** The [for] loop of [formatAsJson] over the cells of one line, from
    index [i] on, on the object [iRet]. *)
Fixpoint rowObject (headers : list string) (i : nat) (cells : list string) (iRet : Item)
  : Item :=
  match cells with
  | [] => iRet
  | cell :: rest => rowObject headers (S i) rest (assignCell iRet (headerAt headers i) cell)
  end.

Definition newline : ascii := ascii_of_nat 10.
Definition comma : ascii := ","%char.

(** The lines of the data after the header line. *)
Definition dataLines (data : string) : list string := tail (split newline data).

Definition csvHeaders (data : string) : list string :=
  split comma (hd EmptyString (split newline data)).

(** The array [ret] that the [forEach] of [formatAsJson] builds. *)
Definition csvRows (data : string) : list Item :=
  flat_map (fun l => if String.eqb l EmptyString then []
                     else [rowObject (csvHeaders data) 0 (split comma l) ∅])
           (dataLines data).

(** The arguments of [formatAsJson], for calls without [filterKeys] and
    [renameKeys]. *)
Record FormatArgs : Type := mkFormatArgs {
  data : string;
  type : option string;
  mapKey : option string
}.

Inductive Formatted : Type :=
| Rows (rows : list Item)
| Mapped (map : gmap string Item).

Inductive FormatError : Type :=
| UnsupportedType (type : option string)
| ConvertError (error : Throws).

(** [formatAsJson(args)] *)
Definition formatAsJson (args : FormatArgs) : FormatError + Formatted :=
  match type args with
  | Some "csv" =>
      let ret := csvRows (data args) in
      match truthy (mapKey args) with
      | Some key =>
          match _convertArrayToMap (DArray ret) (KeyName key) noOptions with
          | inr map => inr (Mapped map)
          | inl error => inl (ConvertError error)
          end
      | None => inr (Rows ret)
      end
  | other => inl (UnsupportedType other)
  end.

(** *** Facts *)

Lemma Json_induction (P : Json.t -> Prop) :
  P JNull -> (forall b, P (JBool b)) -> (forall z, P (JNum z)) -> (forall s, P (JStr s)) ->
  (forall items, P (JArr items)) ->
  (forall members, Forall (fun kv => P kv.2) members -> P (JObj members)) ->
  forall d, P d.
Proof.
  intros Hnull Hbool Hnum Hstr Harr Hobj.
  fix IH 1. intros [| | | |items|members].
  - exact Hnull.
  - apply Hbool.
  - apply Hnum.
  - apply Hstr.
  - apply Harr.
  - apply Hobj. induction members as [|[k v] members IHl]; constructor;
      [apply IH | exact IHl].
Qed.

Lemma filterData_keys (options : FilterOptions) (d : Json.t) :
  Forall (fun k => deleteKey options k = false) (objectKeys (filterData options d)).
Proof.
  induction d as [| | | | |members IH] using Json_induction; simpl; try constructor.
  induction IH as [|[k v] members Hv _ IHm]; simpl; [constructor|].
  destruct (deleteKey options k) eqn:Hk; simpl; [exact IHm|].
  constructor; [exact Hk|]. apply Forall_app. split; [exact Hv | exact IHm].
Qed.

Lemma filterData_lookup (options : FilterOptions) (members : list (string * Json.t))
    (k : string) :
  Json.get k (filterData options (JObj members))
  = if deleteKey options k then None
    else filterData options <$> Json.lookup k members.
Proof.
  simpl. induction members as [|[k' v] members IH]; simpl.
  - now destruct (deleteKey options k).
  - destruct (String.eqb_spec k' k) as [->|Hne].
    + destruct (deleteKey options k) eqn:Hk; simpl.
      * rewrite IH. try rewrite Hk. reflexivity.
      * now rewrite String.eqb_refl.
    + destruct (deleteKey options k') eqn:Hk'; simpl; [exact IH|].
      destruct (String.eqb_spec k' k); [contradiction | exact IH].
Qed.

(** With [exclude], no listed key is left in the result at any depth of
    nested objects, and every other key of the top object keeps its value,
    filtered in turn. *)
Theorem filterDataByKeys_exclude (d : Json.t) (keys : list string) :
  exists r : Json.t,
    _filterDataByKeys d (Some (mkFilterOptions None (Some keys))) = inr r /\
    (forall k, k ∈ keys -> k ∉ objectKeys r) /\
    (forall members k, d = JObj members -> k ∉ keys ->
       Json.get k r = filterData (mkFilterOptions None (Some keys)) <$> Json.lookup k members).
Proof.
  exists (filterData (mkFilterOptions None (Some keys)) d). split; [reflexivity|]. split.
  - intros k Hk Hin.
    pose proof (filterData_keys (mkFilterOptions None (Some keys)) d) as HF.
    rewrite Forall_forall in HF. specialize (HF k Hin). unfold deleteKey in HF. simpl in HF.
    assert (Ht : existsb (fun i => String.eqb i k) keys = true).
    { apply existsb_exists. exists k. split; [now apply list_elem_of_In | apply String.eqb_refl]. }
    congruence.
  - intros members k -> Hk. rewrite filterData_lookup.
    assert (Hf : deleteKey (mkFilterOptions None (Some keys)) k = false).
    { unfold deleteKey. simpl. apply not_true_is_false. intros Ht.
      apply existsb_exists in Ht as (i & Hi & E). apply String.eqb_eq in E. subst i.
      apply Hk. now apply list_elem_of_In. }
    now rewrite Hf.
Qed.

(** With [include], every key left in the result, at any depth of nested
    objects, contains one of the listed strings: a key under a kept key has
    to match as well.  With an empty list an object comes back empty. *)
Theorem filterDataByKeys_include (d : Json.t) (keys : list string) :
  exists r : Json.t,
    _filterDataByKeys d (Some (mkFilterOptions (Some keys) None)) = inr r /\
    (forall k, k ∈ objectKeys r -> exists i, i ∈ keys /\ includes i k = true) /\
    (forall members, d = JObj members -> keys = [] -> r = JObj []).
Proof.
  exists (filterData (mkFilterOptions (Some keys) None) d). split; [reflexivity|]. split.
  - intros k Hin.
    pose proof (filterData_keys (mkFilterOptions (Some keys) None) d) as HF.
    rewrite Forall_forall in HF. specialize (HF k Hin). unfold deleteKey in HF. simpl in HF.
    apply negb_false_iff, existsb_exists in HF as (i & Hi & E).
    exists i. split; [now apply list_elem_of_In | exact E].
  - intros members -> ->. simpl. f_equal.
    induction members as [|[k v] members IH]; [reflexivity | exact IH].
Qed.

Lemma filterData_idem (options : FilterOptions) (d : Json.t) :
  filterData options (filterData options d) = filterData options d.
Proof.
  induction d as [| | | | |members IH] using Json_induction; simpl; try reflexivity.
  f_equal. induction IH as [|[k v] members Hv _ IHm]; simpl; [reflexivity|].
  destruct (deleteKey options k) eqn:Hk; simpl; [exact IHm|].
  rewrite Hk. simpl in *. rewrite Hv. f_equal. exact IHm.
Qed.

(** Filtering filtered data again, with the same options, changes
    nothing. *)
Theorem filterDataByKeys_idempotent (d r : Json.t) (options : option FilterOptions) :
  _filterDataByKeys d options = inr r ->
  _filterDataByKeys r options = inr r.
Proof.
  unfold _filterDataByKeys.
  destruct (include (default (mkFilterOptions None None) options)),
           (exclude (default (mkFilterOptions None None) options));
    intros [= <-]; now rewrite filterData_idem.
Qed.

Lemma rowObject_lookup (headers : list string) (cells : list string) (i : nat) (iRet : Item)
    (n : nat) (h : string) :
  NoDup headers -> "undefined" ∉ headers -> headers !! n = Some h -> h <> "__proto__" ->
  rowObject headers i cells iRet !! h
  = if bool_decide (i <= n < i + List.length cells)%nat
    then VStr <$> cells !! (n - i)%nat
    else iRet !! h.
Proof.
  intros Hnd Hun Hn Hproto. revert i iRet.
  induction cells as [|c rest IH]; intros i iRet; simpl.
  - case_bool_decide; [lia | reflexivity].
  - rewrite IH. unfold assignCell. case_bool_decide as H1.
    + case_bool_decide as H2; [|lia].
      replace (n - i)%nat with (S (n - S i)) by lia. reflexivity.
    + case_bool_decide as H2.
      * assert (n = i) as -> by lia. unfold headerAt. rewrite Hn. simpl.
        destruct (String.eqb_spec h "__proto__") as [->|_]; [congruence|].
        rewrite lookup_insert_eq. now rewrite Nat.sub_diag.
      * destruct (String.eqb_spec (headerAt headers i) "__proto__") as [_|_];
          [reflexivity|].
        rewrite lookup_insert_ne; [reflexivity|].
        unfold headerAt. destruct (headers !! i) as [h'|] eqn:Hi; simpl.
        -- intros ->. pose proof (NoDup_lookup _ _ _ _ Hnd Hi Hn). lia.
        -- intros <-. apply Hun. apply list_elem_of_lookup. eauto.
Qed.

Lemma rowObject_proto (headers : list string) (cells : list string) (i : nat) (iRet : Item) :
  rowObject headers i cells iRet !! "__proto__" = iRet !! "__proto__".
Proof.
  revert i iRet. induction cells as [|c rest IH]; intros i iRet; simpl; [reflexivity|].
  rewrite IH. unfold assignCell.
  destruct (String.eqb_spec (headerAt headers i) "__proto__") as [_|Hne]; [reflexivity|].
  now rewrite lookup_insert_ne.
Qed.

(** Reading CSV: with distinct headers, none of them the word
    [undefined], the object of a line has under each header other than
    [__proto__] the cell of the line at the header's position, and no entry
    for a header the line has no cell for.  Under [__proto__] the object has
    no entry of its own, whether that is a header or not: the cell of such a
    column is dropped.  There is one object per non-empty line after the
    header line. *)
Theorem formatAsJson_cells (data : string) :
  NoDup (csvHeaders data) -> "undefined" ∉ csvHeaders data ->
  exists rows : list Item,
    formatAsJson (mkFormatArgs data (Some "csv") None) = inr (Rows rows) /\
    Forall2 (fun line row =>
               (forall n h, csvHeaders data !! n = Some h -> h <> "__proto__" ->
                            row !! h = VStr <$> split comma line !! n) /\
               row !! "__proto__" = None)
            (filter (fun l => l <> EmptyString) (dataLines data)) rows.
Proof.
  intros Hnd Hun. exists (csvRows data). split; [reflexivity|]. unfold csvRows.
  induction (dataLines data) as [|l lines IH]; simpl; [constructor|].
  rewrite filter_cons. destruct (String.eqb_spec l EmptyString) as [->|Hne]; simpl.
  - destruct (decide (EmptyString <> EmptyString)) as [Hd|Hd]; [congruence | exact IH].
  - destruct (decide (l <> EmptyString)) as [Hd|Hd]; [|contradiction].
    constructor; [|exact IH]. split.
    + intros n h Hn Hproto. rewrite (rowObject_lookup _ _ 0 ∅ n h Hnd Hun Hn Hproto).
      rewrite Nat.sub_0_r, lookup_empty. case_bool_decide as Hb; [reflexivity|].
      symmetry. destruct (split comma l !! n) eqn:E; [|reflexivity].
      apply lookup_lt_Some in E. lia.
    + rewrite rowObject_proto. apply lookup_empty.
Qed.

(** Reading CSV into a map: the map has under a name the last line's
    object whose [mapKey] cell is the name. *)
Theorem formatAsJson_mapKey (data key : string) :
  key <> EmptyString ->
  exists map : gmap string Item,
    formatAsJson (mkFormatArgs data (Some "csv") (Some key)) = inr (Mapped map) /\
    forall (name : string) (row : Item),
      map !! name = Some row <->
      exists before after : list Item,
        csvRows data = before ++ row :: after /\
        toStr (getProp row key) = name /\
        Forall (fun later => toStr (getProp later key) <> name) after.
Proof.
  intros Hkey. unfold formatAsJson. simpl.
  destruct key as [|c key]; [congruence|]. simpl.
  eexists. split; [reflexivity|]. intros name row.
  apply (collect_lookup (keyNameOf (KeyName (String c key)) noOptions)).
Qed.

Definition sampleCsv : string :=
  String.concat (String newline EmptyString) ["name,rate"; "a,1"; ""; "b,2"; "a,3"].

Lemma filterDataByKeys_exclude_witness :
  "secret" ∉ objectKeys
    (filterData (mkFilterOptions None (Some ["secret"]))
       (JObj [("a", JObj [("secret", JNum 1); ("b", JNum 2)]); ("secret", JNull)])).
Proof.
  destruct (filterDataByKeys_exclude
              (JObj [("a", JObj [("secret", JNum 1); ("b", JNum 2)]); ("secret", JNull)])
              ["secret"]) as (r & E & H & _).
  injection E as <-. apply H. apply list_elem_of_In. simpl. tauto.
Defined.

Lemma filterDataByKeys_include_witness :
  filterData (mkFilterOptions (Some []) None) (JObj [("a", JNum 1)]) = JObj [].
Proof.
  destruct (filterDataByKeys_include (JObj [("a", JNum 1)]) []) as (r & E & _ & H).
  injection E as <-. apply (H [("a", JNum 1)]); reflexivity.
Defined.

Lemma filterDataByKeys_idempotent_witness :
  _filterDataByKeys (JObj [("b", JNum 2)]) (Some (mkFilterOptions None (Some ["a"])))
  = inr (JObj [("b", JNum 2)]).
Proof.
  apply (filterDataByKeys_idempotent (JObj [("a", JNum 1); ("b", JNum 2)])).
  reflexivity.
Defined.

Definition protoCsv : string :=
  String.concat (String newline EmptyString) ["name,__proto__,rate"; "a,x,1"].

Lemma formatAsJson_cells_witness :
  exists rows : list Item,
    formatAsJson (mkFormatArgs protoCsv (Some "csv") None) = inr (Rows rows) /\
    Forall2 (fun line row =>
               (forall n h, csvHeaders protoCsv !! n = Some h -> h <> "__proto__" ->
                            row !! h = VStr <$> split comma line !! n) /\
               row !! "__proto__" = None)
            (filter (fun l => l <> EmptyString) (dataLines protoCsv)) rows.
Proof.
  apply (formatAsJson_cells protoCsv).
  - vm_compute. repeat constructor; intros Hin;
      repeat (apply elem_of_cons in Hin as [Hin|Hin]; [discriminate Hin|]); inversion Hin.
  - vm_compute. intros Hin.
    repeat (apply elem_of_cons in Hin as [Hin|Hin]; [discriminate Hin|]). inversion Hin.
Defined.

(** A column named [__proto__] leaves no entry in the objects. *)
Example formatAsJson_proto :
  formatAsJson (mkFormatArgs protoCsv (Some "csv") None)
  = inr (Rows [ {[ "name" := VStr "a"; "rate" := VStr "1" ]} ]).
Proof. vm_compute. reflexivity. Qed.

Lemma formatAsJson_mapKey_witness :
  exists map : gmap string Item,
    formatAsJson (mkFormatArgs sampleCsv (Some "csv") (Some "name")) = inr (Mapped map) /\
    map !! "a" = Some {[ "name" := VStr "a"; "rate" := VStr "3" ]}.
Proof.
  destruct (formatAsJson_mapKey sampleCsv "name") as (map & E & H); [discriminate|].
  exists map. split; [exact E|]. apply H.
  exists [ {[ "name" := VStr "a"; "rate" := VStr "1" ]};
           {[ "name" := VStr "b"; "rate" := VStr "2" ]} ], [].
  split; [vm_compute; reflexivity|]. split; [vm_compute; reflexivity | constructor].
Defined.

End NormalizeData.
